(** * Schema-version syncer of the DDL layer (ddl/syncer.go)

    A shallow embedding of [schemaVersionSyncer]: the retrying writer
    [putKV], [Init], [UpdateSelfVersion], [OwnerUpdateGlobalVersion],
    [RemoveSelfVersionPath], [isContextFinished] and the polling loop of
    [OwnerCheckAllVersions].

    The etcd client, the contexts and the clock are the outside world of
    this code.  They are modelled by a [World] that the operations thread
    through a small state monad, and by an immutable [Env] that fixes what
    the outside does: which store operations fail, when a context is
    found done, and what the other nodes write between two of our
    operations.  Every theorem quantifies over [Env], so it holds for
    every behaviour of the outside. *)

From Stdlib Require Import ZArith String Ascii List Bool Lia DecimalString DecimalPos.
From stdpp Require Import gmap strings.
Import ListNotations.
Local Open Scope string_scope.
Local Open Scope list_scope.
Local Open Scope Z_scope.

(** ** Errors *)

Module Errors.

(** A Go [error] value that is not nil.  [Canceled] and [DeadlineExceeded]
    are the two sentinel errors of the context package, [EtcdError] is any
    error the store client reports, and [Traced] is the wrapper that
    [errors.Trace] of juju/errors puts around an error. *)
Inductive error : Type :=
| Canceled
| DeadlineExceeded
| EtcdError (msg : string)
| Traced (previous : error).

(** A nullable [error]: [None] is Go's nil. *)
Definition err := option error.

(** [errors.Trace]: nil stays nil, any other error is wrapped. *)
Definition Trace (other : err) : err :=
  match other with
  | None => None
  | Some e => Some (Traced e)
  end.

(** [errors.Cause]: the error under all the wrappers. *)
Fixpoint Cause (e : error) : error :=
  match e with
  | Traced p => Cause p
  | _ => e
  end.

Definition error_eqb_base (a b : error) : bool :=
  match a, b with
  | Canceled, Canceled => true
  | DeadlineExceeded, DeadlineExceeded => true
  | EtcdError m, EtcdError n => String.eqb m n
  | _, _ => false
  end.

(** Modelled from the spec: [terror.ErrorEqual] lives in the terror package,
    which is not among the sources.  The spec speaks of a scan error that
    "is a context-cancellation/deadline error"; the comparison is made on
    the causes of the two errors, and nil equals only nil. *)
Definition ErrorEqual (err1 err2 : err) : bool :=
  match err1, err2 with
  | None, None => true
  | Some a, Some b => error_eqb_base (Cause a) (Cause b)
  | _, _ => false
  end.

End Errors.
Export Errors.

(** ** Constants of the package *)

Definition ddlAllSchemaVersions : string := "/tidb/ddl/all_schema_versions".
Definition ddlGlobalSchemaVersion : string := "/tidb/ddl/global_schema_version".
Definition initialVersion : string := "0".
Definition putKeyNoRetry : Z := 1.
Definition keyOpDefaultRetryCnt : Z := 3.
Definition putKeyRetryUnlimited : Z := 9223372036854775807.

(** A [time.Duration] is a number of nanoseconds. *)
Definition Duration := Z.
Definition Millisecond : Duration := 1000000.
Definition Second : Duration := 1000 * Millisecond.
Definition keyOpDefaultTimeout : Duration := 2 * Second.
Definition putKeyRetryInterval : Duration := 30 * Millisecond.
Definition checkVersInterval : Duration := 20 * Millisecond.

(** ** Contexts *)

(** [Background] is [goctx.Background()], which is never done.  [Caller n]
    is a context that some caller made; whether it is done at a given
    moment is up to the environment.  [WithTimeout] is the child context
    of [goctx.WithTimeout]. *)
Inductive context : Type :=
| Background
| Caller (id : nat)
| WithTimeout (parent : context) (timeout : Duration).

(** A [clientv3.WatchChan], known by the context and the key it was opened
    with. *)
Record WatchChan : Type := mkWatchChan { watch_ctx : context; watch_key : string }.

(** ** The store *)

(** One key-value pair of a range response ([mvccpb.KeyValue]). *)
Record KeyValue : Type := mkKV { Key : string; Value : string }.

(** The etcd keyspace: the pairs in ascending key order, the order in which
    a range request returns them. *)
Definition Store := list KeyValue.

Fixpoint store_lookup (k : string) (s : Store) : option string :=
  match s with
  | [] => None
  | kv :: s' => if String.eqb k (Key kv) then Some (Value kv) else store_lookup k s'
  end.

Fixpoint store_put (k v : string) (s : Store) : Store :=
  match s with
  | [] => [mkKV k v]
  | kv :: s' =>
      match String.compare k (Key kv) with
      | Eq => mkKV k v :: s'
      | Lt => mkKV k v :: s
      | Gt => kv :: store_put k v s'
      end
  end.

Fixpoint store_delete (k : string) (s : Store) : Store :=
  match s with
  | [] => []
  | kv :: s' => if String.eqb k (Key kv) then store_delete k s' else kv :: store_delete k s'
  end.

(** A range request [WithPrefix]: the pairs whose key starts with [p]. *)
Definition store_range (p : string) (s : Store) : list KeyValue :=
  List.filter (fun kv => String.prefix p (Key kv)) s.

(** The transaction of [Init]:
    [If(CreateRevision(k) = 0).Then(OpPut(k, v))].  The create revision of
    a key is 0 exactly when the key does not exist. *)
Definition store_create_if_absent (k v : string) (s : Store) : Store :=
  match store_lookup k s with
  | None => store_put k v s
  | Some _ => s
  end.

(** ** The world *)

(** What the code does to the outside, in program order. *)
Inductive Event : Type :=
| EvDone (ctx : context) (r : err)
| EvPut (ctx : context) (key val : string) (r : err)
| EvDelete (ctx : context) (key : string) (r : err)
| EvGet (ctx : context) (prefix : string) (kvs : list KeyValue) (r : err)
| EvTxn (ctx : context) (key val : string) (r : err)
| EvWatch (ctx : context) (key : string)
| EvSleep (d : Duration)
| EvLog.

(** The behaviour of the outside.  [ctx_err c n] is what the [n]-th look
    at a context finds: [None] while [c.Done()] is open, the value of
    [c.Err()] once it is closed.  [op_err n] is the outcome of the [n]-th
    store operation of this client.  [others n] is what the rest of the
    cluster has done to the keyspace between operation [n-1] and
    operation [n]. *)
Record Env : Type := mkEnv {
  ctx_err : context -> nat -> err;
  op_err : nat -> err;
  others : nat -> Store -> Store
}.

Record World : Type := mkWorld {
  store : Store;
  looks : nat;                     (* looks at a context so far *)
  ops : nat;                       (* store operations so far *)
  trace : list Event;              (* newest event first *)
  checkVersFirstWaitTime : Duration  (* the package variable *)
}.

(** ** A state monad over the world *)

Definition M (A : Type) : Type := World -> A * World.

Definition ret {A} (a : A) : M A := fun w => (a, w).

Definition bind {A B} (m : M A) (k : A -> M B) : M B :=
  fun w => let (a, w') := m w in k a w'.

Notation "'let*' x ':=' m 'in' k" := (bind m (fun x => k))
  (at level 10, x name, m at level 100, k at level 200).
Notation "'do*' m 'in' k" := (bind m (fun _ => k))
  (at level 10, m at level 100, k at level 200).

Definition emit (e : Event) : M unit :=
  fun w => (tt, mkWorld (store w) (looks w) (ops w) (e :: trace w)
                        (checkVersFirstWaitTime w)).

Section Primitives.

Variable env : Env.

(** What the [n]-th look at [ctx] finds; the background context is never
    done. *)
Definition ctxLook (ctx : context) (n : nat) : err :=
  match ctx with
  | Background => None
  | _ => ctx_err env ctx n
  end.

(** [select { case <-ctx.Done(): ...; default: }]: the result is
    [ctx.Err()] when the channel is closed, nil otherwise. *)
Definition ctxDone (ctx : context) : M err :=
  fun w =>
    let r := ctxLook ctx (looks w) in
    (r, mkWorld (store w) (S (looks w)) (ops w) (EvDone ctx r :: trace w)
                (checkVersFirstWaitTime w)).

(** A store operation: the others move first, then the operation either
    fails and leaves the keyspace alone, or applies [f]. *)
Definition storeOp (f : Store -> Store) (ev : err -> Store -> Event) : M err :=
  fun w =>
    let s := others env (ops w) (store w) in
    let r := op_err env (ops w) in
    let s' := match r with None => f s | Some _ => s end in
    (r, mkWorld s' (looks w) (S (ops w)) (ev r s :: trace w)
                (checkVersFirstWaitTime w)).

Definition etcdPut (ctx : context) (key val : string) : M err :=
  storeOp (store_put key val) (fun r _ => EvPut ctx key val r).

Definition etcdDelete (ctx : context) (key : string) : M err :=
  storeOp (store_delete key) (fun r _ => EvDelete ctx key r).

Definition etcdTxnCreate (ctx : context) (key val : string) : M err :=
  storeOp (store_create_if_absent key val) (fun r _ => EvTxn ctx key val r).

(** [etcdCli.Get(ctx, prefix, WithPrefix())]: the pairs of the response
    and the error; the response is empty when the error is not nil. *)
Definition etcdGet (ctx : context) (prefix : string) : M (list KeyValue * err) :=
  fun w =>
    let s := others env (ops w) (store w) in
    let r := op_err env (ops w) in
    let kvs := match r with
               | Some _ => []
               | None => store_range prefix s
               end in
    ((kvs, r), mkWorld s (looks w) (S (ops w)) (EvGet ctx prefix kvs r :: trace w)
                       (checkVersFirstWaitTime w)).

(** [etcdCli.Watch(ctx, key)]: the channel is known by what it watches. *)
Definition etcdWatch (ctx : context) (key : string) : M WatchChan :=
  fun w => (mkWatchChan ctx key,
            mkWorld (store w) (looks w) (ops w) (EvWatch ctx key :: trace w)
                    (checkVersFirstWaitTime w)).

Definition timeSleep (d : Duration) : M unit := emit (EvSleep d).

Definition logf : M unit := emit EvLog.

End Primitives.

(** ** Conversions of strconv *)

Definition digit_of (c : ascii) : option Z :=
  let n := Z.of_nat (nat_of_ascii c) in
  if (48 <=? n) && (n <=? 57) then Some (n - 48) else None.

(** The digits of an unsigned decimal number, most significant first, read
    onto the accumulator [acc]; [None] at the first byte that is no
    digit. *)
Fixpoint parse_digits (s : string) (acc : Z) : option Z :=
  match s with
  | EmptyString => Some acc
  | String c r =>
      match digit_of c with
      | Some d => parse_digits r (10 * acc + d)
      | None => None
      end
  end.

Definition parse_uint (s : string) : option Z :=
  match s with
  | EmptyString => None
  | _ => parse_digits s 0
  end.

Definition maxInt64 : Z := 9223372036854775807.
Definition minInt64 : Z := -9223372036854775808.

(** [strconv.Atoi] of the Go library where [int] has 64 bits: an optional
    sign, then one or more decimal digits, and a value that fits [int];
    [None] stands for a result with a non-nil error. *)
Definition Atoi (s : string) : option Z :=
  let signed :=
    match s with
    | String "+" r => parse_uint r
    | String "-" r => option_map Z.opp (parse_uint r)
    | _ => parse_uint s
    end in
  match signed with
  | Some n => if (minInt64 <=? n) && (n <=? maxInt64) then Some n else None
  | None => None
  end.

(** [strconv.FormatInt(v, 10)]. *)
Definition FormatInt (v : Z) : string :=
  NilZero.string_of_int (Z.to_int v).

(** ** The syncer *)

Record schemaVersionSyncer : Type := mkSyncer {
  selfSchemaVerPath : string;
  globalVerCh : option WatchChan     (* nil until [Init] has run *)
}.

(** [fmt.Sprintf("%s/%s", ddlAllSchemaVersions, id)] *)
Definition NewSchemaSyncer (id : string) : schemaVersionSyncer :=
  mkSyncer (String.append ddlAllSchemaVersions (String.append "/" id)) None.

Definition isContextFinished (e : err) : bool :=
  if ErrorEqual e (Some Canceled) || ErrorEqual e (Some DeadlineExceeded)
  then true
  else false.

(** An error of a context: under its wrappers it is one of the two
    sentinel errors of the context package.  This says what kind of error
    [e] is without asking [isContextFinished]. *)
Definition context_error (e : error) : Prop :=
  Cause e = Canceled \/ Cause e = DeadlineExceeded.

Section Syncer.

Variable env : Env.

(** The body of the loop of [putKV], with [n] iterations left and [e] the
    current value of the variable [err].  The [cancel()] of the child
    context has no effect that is observed here. *)
Fixpoint putKV_loop (n : nat) (ctx : context) (key val : string) (e : err) : M err :=
  match n with
  | O => ret (Trace e)
  | S n' =>
      let* done := ctxDone env ctx in
      match done with
      | Some ce => ret (Trace (Some ce))
      | None =>
          let* e' := etcdPut env (WithTimeout ctx keyOpDefaultTimeout) key val in
          match e' with
          | None => ret None
          | Some _ =>
              do* logf in
              do* timeSleep putKeyRetryInterval in
              putKV_loop n' ctx key val e'
          end
      end
  end.

(** [for i := 0; i < retryCnt; i++] runs [retryCnt] times, and not at all
    when [retryCnt <= 0]. *)
Definition putKV (s : schemaVersionSyncer) (ctx : context) (retryCnt : Z)
    (key val : string) : M err :=
  putKV_loop (Z.to_nat retryCnt) ctx key val None.

(** [Init] assigns the field [globalVerCh] of its receiver: the syncer
    comes back with the result. *)
Definition Init (s : schemaVersionSyncer) (ctx : context)
    : M (schemaVersionSyncer * err) :=
  let* e := etcdTxnCreate env ctx ddlGlobalSchemaVersion initialVersion in
  match e with
  | Some _ => ret (s, Trace e)
  | None =>
      let* ch := etcdWatch ctx ddlGlobalSchemaVersion in
      let s' := mkSyncer (selfSchemaVerPath s) (Some ch) in
      let* r := putKV s' ctx keyOpDefaultRetryCnt (selfSchemaVerPath s') initialVersion in
      ret (s', r)
  end.

Definition GlobalVersionCh (s : schemaVersionSyncer) : option WatchChan :=
  globalVerCh s.

Definition UpdateSelfVersion (s : schemaVersionSyncer) (ctx : context)
    (version : Z) : M err :=
  let ver := FormatInt version in
  putKV s ctx putKeyNoRetry (selfSchemaVerPath s) ver.

Definition OwnerUpdateGlobalVersion (s : schemaVersionSyncer) (ctx : context)
    (version : Z) : M err :=
  let ver := FormatInt version in
  putKV s ctx putKeyRetryUnlimited ddlGlobalSchemaVersion ver.

(** The loop of [RemoveSelfVersionPath], with [n] iterations left. *)
Fixpoint removeSelf_loop (n : nat) (ctx : context) (key : string) (e : err) : M err :=
  match n with
  | O => ret (Trace e)
  | S n' =>
      let* e' := etcdDelete env (WithTimeout ctx keyOpDefaultTimeout) key in
      match e' with
      | None => ret None
      | Some _ =>
          do* logf in
          removeSelf_loop n' ctx key e'
      end
  end.

Definition RemoveSelfVersionPath (s : schemaVersionSyncer) : M err :=
  let ctx := Background in
  removeSelf_loop (Z.to_nat keyOpDefaultRetryCnt) ctx (selfSchemaVerPath s) None.

(** The [for _, kv := range resp.Kvs] of [OwnerCheckAllVersions]: the
    value of [succ] and the map [updatedMap] when the loop is left.  The
    log line of a round that fails is written by [checkLoop]. *)
Fixpoint checkRound (latestVer : Z) (kvs : list KeyValue)
    (updatedMap : gset string) : bool * gset string :=
  match kvs with
  | [] => (true, updatedMap)
  | kv :: rest =>
      if decide (Key kv ∈ updatedMap) then
        checkRound latestVer rest updatedMap
      else
        match Atoi (Value kv) with
        | None => (false, updatedMap)
        | Some ver =>
            if negb (ver =? latestVer) then (false, updatedMap)
            else checkRound latestVer rest ({[Key kv]} ∪ updatedMap)
        end
  end.

(** The endless [for] of [OwnerCheckAllVersions], cut after [fuel]
    iterations: [None] when the fuel is spent before the loop returns,
    [Some r] when it returns the error [r]. *)
Fixpoint checkLoop (fuel : nat) (ctx : context) (latestVer : Z)
    (updatedMap : gset string) : M (option err) :=
  match fuel with
  | O => ret None
  | S fuel' =>
      let* done := ctxDone env ctx in
      match done with
      | Some ce => ret (Some (Trace (Some ce)))
      | None =>
          let* resp := etcdGet env ctx ddlAllSchemaVersions in
          let e := snd resp in
          if isContextFinished e then ret (Some (Trace e))
          else
            match e with
            | Some _ =>
                do* logf in
                checkLoop fuel' ctx latestVer updatedMap
            | None =>
                let round := checkRound latestVer (fst resp) updatedMap in
                if fst round then ret (Some None)
                else
                  do* logf in
                  do* timeSleep checkVersInterval in
                  checkLoop fuel' ctx latestVer (snd round)
            end
      end
  end.

Definition OwnerCheckAllVersions (fuel : nat) (s : schemaVersionSyncer)
    (ctx : context) (latestVer : Z) : M (option err) :=
  do* (fun w => timeSleep (checkVersFirstWaitTime w) w) in
  checkLoop fuel ctx latestVer ∅.

End Syncer.

(** ** Reading a trace *)

(** The number of put attempts in a trace. *)
Fixpoint puts_in (tr : list Event) : nat :=
  match tr with
  | [] => 0%nat
  | EvPut _ _ _ _ :: tr' => S (puts_in tr')
  | _ :: tr' => puts_in tr'
  end.

(** The time slept in a trace. *)
Fixpoint slept_in (tr : list Event) : Duration :=
  match tr with
  | [] => 0
  | EvSleep d :: tr' => d + slept_in tr'
  | _ :: tr' => slept_in tr'
  end.

(** The number of delete attempts in a trace. *)
Fixpoint deletes_in (tr : list Event) : nat :=
  match tr with
  | [] => 0%nat
  | EvDelete _ _ _ :: tr' => S (deletes_in tr')
  | _ :: tr' => deletes_in tr'
  end.

(** Whether a delay separates every two delete attempts that follow one
    another in a trace; [slept] tells whether time has been slept since
    the delete attempt read last (or no delete attempt has been read). *)
Fixpoint deletes_spaced (tr : list Event) (slept : bool) : bool :=
  match tr with
  | [] => true
  | EvDelete _ _ _ :: tr' => slept && deletes_spaced tr' false
  | EvSleep d :: tr' => deletes_spaced tr' (slept || (0 <? d))
  | _ :: tr' => deletes_spaced tr' slept
  end.

(** ** Worlds along a run of the retrying writer *)

Section PutKVWorlds.

Variable env : Env.
Variables (ctx : context) (key val : string).

(** The world after one attempt of [putKV] that found the context open and
    whose put failed: the look, the put, the log line and the sleep. *)
Definition failedAttempt (w : World) : World :=
  mkWorld (others env (ops w) (store w)) (S (looks w)) (S (ops w))
          (EvSleep putKeyRetryInterval :: EvLog ::
           EvPut (WithTimeout ctx keyOpDefaultTimeout) key val (op_err env (ops w)) ::
           EvDone ctx None :: trace w)
          (checkVersFirstWaitTime w).

Fixpoint failedAttempts (k : nat) (w : World) : World :=
  match k with
  | O => w
  | S k' => failedAttempts k' (failedAttempt w)
  end.

(** The variable [err] after [k] failed attempts that started with [e]. *)
Definition errAfter (k : nat) (e : err) (w : World) : err :=
  match k with
  | O => e
  | S k' => op_err env (ops w + k')
  end.

End PutKVWorlds.

(** ** Worlds along a run of the convergence check *)

Section CheckWorlds.

Variable env : Env.
Variable ctx : context.

(** The self-version records that a scan started in world [w] finds. *)
Definition scanned (w : World) : list KeyValue :=
  store_range ddlAllSchemaVersions (others env (ops w) (store w)).

(** The world after an iteration of the loop has found the context open
    and has made its scan. *)
Definition afterScan (w : World) : World :=
  mkWorld (others env (ops w) (store w)) (S (looks w)) (S (ops w))
          (EvGet ctx ddlAllSchemaVersions
                 (match op_err env (ops w) with
                  | Some _ => []
                  | None => scanned w
                  end)
                 (op_err env (ops w))
           :: EvDone ctx None :: trace w)
          (checkVersFirstWaitTime w).

(** The world after a look that finds the context done. *)
Definition afterDone (ce : error) (w : World) : World :=
  mkWorld (store w) (S (looks w)) (ops w) (EvDone ctx (Some ce) :: trace w)
          (checkVersFirstWaitTime w).

(** How a run of the loop that returns [r] ends, read from the events
    [new] it has added (newest first). *)
Definition ends_with (r : err) (new : list Event) : Prop :=
  match r with
  | None => True
  | Some te =>
      exists e rest, te = Traced e /\
        (new = EvDone ctx (Some e) :: rest \/
         (context_error e /\
          new = EvGet ctx ddlAllSchemaVersions [] (Some e) :: rest))
  end.

End CheckWorlds.

(** [w] with the events [evs] (newest first) added to its trace. *)
Definition addEvents (evs : list Event) (w : World) : World :=
  mkWorld (store w) (looks w) (ops w) (evs ++ trace w) (checkVersFirstWaitTime w).

(** The responses of the scans of a trace that succeeded, newest first. *)
Fixpoint scans_in (tr : list Event) : list (list KeyValue) :=
  match tr with
  | [] => []
  | EvGet _ _ kvs None :: tr' => kvs :: scans_in tr'
  | _ :: tr' => scans_in tr'
  end.

(** The ConvergenceSet after the rounds over the scans [earlier] (newest
    first) that started from the set [um]. *)
Definition memoOf (latestVer : Z) (earlier : list (list KeyValue))
    (um : gset string) : gset string :=
  fold_right (fun kvs m => snd (checkRound latestVer kvs m)) um earlier.

(** A record holds the version [latestVer]: its value reads as that
    number. *)
Definition holds (latestVer : Z) (kv : KeyValue) : Prop :=
  Atoi (Value kv) = Some latestVer.

(** A record passes a round: its node is in the ConvergenceSet already, or
    it holds the version. *)
Definition passes (latestVer : Z) (um : gset string) (kv : KeyValue) : Prop :=
  Key kv ∈ um \/ holds latestVer kv.

(** The node of [kv] had a record that held the version in one of the
    scans [earlier]. *)
Definition held_before (latestVer : Z) (earlier : list (list KeyValue))
    (kv : KeyValue) : Prop :=
  exists kvs' kv', In kvs' earlier /\ In kv' kvs' /\
    Key kv' = Key kv /\ holds latestVer kv'.

(** Over the scans of one wait (newest first) no record leaves the
    version: a record of a node that held the version in an earlier scan
    holds it in every later scan in which the node has a record. *)
Definition stays (latestVer : Z) (scans : list (list KeyValue)) : Prop :=
  forall later kvs earlier kv,
    scans = later ++ kvs :: earlier ->
    In kv kvs -> held_before latestVer earlier kv -> holds latestVer kv.

(** Two scans with the same keys whose values agree outside [um]. *)
Definition same_outside (um : gset string) (kvs kvs' : list KeyValue) : Prop :=
  Forall2 (fun a b => Key a = Key b /\ (Key a ∉ um -> Value a = Value b)) kvs kvs'.

(** Two environments that differ at most in the values that the others
    give to the records of the nodes in [um]. *)
Definition env_agree (um : gset string) (env env' : Env) : Prop :=
  (forall c n, ctx_err env c n = ctx_err env' c n) /\
  (forall n, op_err env n = op_err env' n) /\
  (forall n st st', same_outside um st st' ->
     same_outside um (others env n st) (others env' n st')).

(** The keyspace is a map: no key occurs twice in it, and the others keep
    it so. *)
Definition store_ok (w : World) : Prop := NoDup (map Key (store w)).

Definition keyspace_ok (env : Env) : Prop :=
  forall n st, NoDup (map Key st) -> NoDup (map Key (others env n st)).

(** ** Several nodes against one store *)

(** [Init] run by the nodes [ids], one after the other, on the same
    client and store; the results in the order of the runs. *)
Fixpoint InitAll (env : Env) (ids : list string) (ctx : context) : M (list err) :=
  match ids with
  | [] => ret []
  | id :: ids' =>
      let* r := Init env (NewSchemaSyncer id) ctx in
      let* rs := InitAll env ids' ctx in
      ret (snd r :: rs)
  end.

(** The value of GlobalVersion in a keyspace. *)
Definition globalVersion (s : Store) : option string :=
  store_lookup ddlGlobalSchemaVersion s.

(** The others leave GlobalVersion alone. *)
Definition global_quiet (env : Env) : Prop :=
  forall n st, globalVersion (others env n st) = globalVersion st.

(** ** Concrete worlds and environments *)

(** A fresh world: an empty keyspace, nothing done yet, the default first
    wait of 50ms. *)
Definition w0 : World := mkWorld [] 0 0 [] (50 * Millisecond).

Definition unavailable : error := EtcdError "etcdserver: request timed out".

(** The first [k] store operations fail, the later ones succeed; no context
    is ever done and nobody else writes. *)
Definition env_fail_first (k : nat) : Env :=
  mkEnv (fun _ _ => None)
        (fun n => if (n <? k)%nat then Some unavailable else None)
        (fun _ s => s).

(** Every store operation fails, the [n]-th with its own message. *)
Definition env_fail_all : Env :=
  mkEnv (fun _ _ => None)
        (fun n => Some (EtcdError (String.append "attempt " (FormatInt (Z.of_nat n)))))
        (fun _ s => s).

(** Every store operation fails and every caller's context is canceled
    from its look number [k] on. *)
Definition env_canceled_at (k : nat) : Env :=
  mkEnv (fun _ n => if (n <? k)%nat then None else Some Canceled)
        (fun _ => Some unavailable)
        (fun _ s => s).

Definition pathA : string := "/tidb/ddl/all_schema_versions/node-a".
Definition pathB : string := "/tidb/ddl/all_schema_versions/node-b".

(** The owner waits for version 5.  At the first scan node a has applied
    it and node b has not.  Then node a starts again, and its [Init]
    writes the initial version to its record; node b applies version 5.
    Nothing fails and no context is done. *)
Definition env_restart : Env :=
  mkEnv (fun _ _ => None)
        (fun _ => None)
        (fun n _ => if (n =? 0)%nat
                    then [mkKV pathA "5"; mkKV pathB "4"]
                    else [mkKV pathA "0"; mkKV pathB "5"]).

(** The first scan fails with an error of the store, the later ones find
    node a at version 5 and nothing else; the context of the caller is
    canceled from its fourth look on. *)
Definition env_hiccup : Env :=
  mkEnv (fun _ n => if (n <? 3)%nat then None else Some Canceled)
        (fun n => if (n =? 0)%nat then Some unavailable else None)
        (fun _ _ => [mkKV pathA "5"]).

(** The first scan comes back with the cancellation error of its context,
    though no look finds the context done; the later operations
    succeed. *)
Definition env_scan_canceled : Env :=
  mkEnv (fun _ _ => None)
        (fun n => if (n =? 0)%nat then Some Canceled else None)
        (fun _ _ => [mkKV pathA "5"]).

(** The first scan comes back with a deadline error that the client has
    wrapped; the rest is as in [env_scan_canceled]. *)
Definition env_scan_deadline : Env :=
  mkEnv (fun _ _ => None)
        (fun n => if (n =? 0)%nat then Some (Traced DeadlineExceeded) else None)
        (fun _ _ => [mkKV pathA "5"]).

(** Node a holds a value that is no number; the context of the caller is
    canceled from its third look on. *)
Definition env_malformed : Env :=
  mkEnv (fun _ n => if (n <? 2)%nat then None else Some Canceled)
        (fun _ => None)
        (fun _ _ => [mkKV pathA "abc"; mkKV pathB "5"]).

(** As [env_restart], but node a keeps version 5 at the second scan. *)
Definition env_steady : Env :=
  mkEnv (fun _ _ => None)
        (fun _ => None)
        (fun n _ => if (n =? 0)%nat
                    then [mkKV pathA "5"; mkKV pathB "4"]
                    else [mkKV pathA "5"; mkKV pathB "5"]).

(** A world in which GlobalVersion exists with the value 7. *)
Definition w7 : World :=
  mkWorld [mkKV ddlGlobalSchemaVersion "7"] 0 0 [] (50 * Millisecond).

Definition nodeA : schemaVersionSyncer := NewSchemaSyncer "node-a".
Definition nodeB : schemaVersionSyncer := NewSchemaSyncer "node-b".
(** * Properties *)

(** ** More readings of a trace *)

(** The number of puts in a trace that succeeded. *)
Fixpoint ok_puts_in (tr : list Event) : nat :=
  match tr with
  | [] => 0%nat
  | EvPut _ _ _ None :: tr' => S (ok_puts_in tr')
  | _ :: tr' => ok_puts_in tr'
  end.

(** The number of puts in a trace that failed. *)
Fixpoint failed_puts_in (tr : list Event) : nat :=
  match tr with
  | [] => 0%nat
  | EvPut _ _ _ (Some _) :: tr' => S (failed_puts_in tr')
  | _ :: tr' => failed_puts_in tr'
  end.

(** The number of requests in a trace that ask the store to change: puts,
    deletes and transactions. *)
Fixpoint writes_in (tr : list Event) : nat :=
  match tr with
  | [] => 0%nat
  | EvPut _ _ _ _ :: tr' => S (writes_in tr')
  | EvDelete _ _ _ :: tr' => S (writes_in tr')
  | EvTxn _ _ _ _ :: tr' => S (writes_in tr')
  | _ :: tr' => writes_in tr'
  end.

(** Nobody else writes. *)
Definition alone (env : Env) : Prop := forall n st, others env n st = st.

(** Whatever a look at [ctx] finds is one of the two errors of a context. *)
Definition context_errors (env : Env) (ctx : context) : Prop :=
  forall n e, ctxLook env ctx n = Some e -> e = Canceled \/ e = DeadlineExceeded.

(** The store fails the first three operations and the useless fourth one
    succeeds; no context is done and nobody else writes. *)
Definition env_outage : Env := env_fail_first 3.

(** Both nodes have applied version 5 when the owner starts to wait, the
    store answers, the context stays open and nobody writes. *)
Definition w55 : World :=
  mkWorld [mkKV pathA "5"; mkKV pathB "+5"; mkKV ddlGlobalSchemaVersion "5"]
          0 0 [] (50 * Millisecond).

Example FormatInt_ex : FormatInt 42 = "42" /\ FormatInt 0 = "0" /\ FormatInt (-7) = "-7".
Proof. repeat split; reflexivity. Qed.

Example Atoi_ex :
  Atoi "5" = Some 5 /\ Atoi "+5" = Some 5 /\ Atoi "-12" = Some (-12) /\
  Atoi "abc" = None /\ Atoi "" = None /\ Atoi "-" = None /\
  Atoi "9223372036854775808" = None /\ Atoi "-9223372036854775808" = Some minInt64.
Proof. repeat split; reflexivity. Qed.

(** ** The retrying writer *)

Section PutKV.

Variable env : Env.
Variables (ctx : context) (key val : string).

Lemma failedAttempts_counts k : forall w,
  ops (failedAttempts env ctx key val k w) = (ops w + k)%nat /\
  looks (failedAttempts env ctx key val k w) = (looks w + k)%nat /\
  puts_in (trace (failedAttempts env ctx key val k w)) = (puts_in (trace w) + k)%nat /\
  slept_in (trace (failedAttempts env ctx key val k w)) =
    slept_in (trace w) + Z.of_nat k * putKeyRetryInterval.
Proof.
  induction k as [|k IH]; intros w; cbn [failedAttempts].
  - repeat split; lia.
  - destruct (IH (failedAttempt env ctx key val w)) as (Ho & Hl & Hp & Hs).
    rewrite Ho, Hl, Hp, Hs. cbn [failedAttempt ops looks trace puts_in slept_in].
    repeat split; lia.
Qed.

Lemma putKV_loop_step_fail n e w :
  ctxLook env ctx (looks w) = None ->
  op_err env (ops w) <> None ->
  putKV_loop env (S n) ctx key val e w =
  putKV_loop env n ctx key val (op_err env (ops w)) (failedAttempt env ctx key val w).
Proof.
  intros Hl Hp. cbn [putKV_loop]. unfold bind, ctxDone. rewrite Hl.
  unfold etcdPut, storeOp.
  destruct (op_err env (ops w)) as [e'|] eqn:He; [|congruence].
  unfold logf, timeSleep, emit, failedAttempt. cbn. rewrite He. reflexivity.
Qed.

(** [k] failed attempts in a row take the loop from [k + n] iterations left
    to [n] iterations left. *)
Lemma putKV_loop_skip k : forall n e w,
  (forall j, (j < k)%nat ->
     ctxLook env ctx (looks w + j) = None /\ op_err env (ops w + j) <> None) ->
  putKV_loop env (k + n) ctx key val e w =
  putKV_loop env n ctx key val (errAfter env k e w) (failedAttempts env ctx key val k w).
Proof.
  induction k as [|k IH]; intros n e w H; [reflexivity|].
  cbn [Nat.add failedAttempts].
  destruct (H 0%nat ltac:(lia)) as [Hl Hp]. rewrite !Nat.add_0_r in *.
  rewrite putKV_loop_step_fail by assumption.
  rewrite IH.
  - f_equal. destruct k as [|k']; cbn [errAfter failedAttempt ops]; [now rewrite Nat.add_0_r|].
    f_equal. lia.
  - intros j Hj. cbn [failedAttempt ops looks].
    destruct (H (S j) ltac:(lia)) as [Hl' Hp'].
    rewrite !Nat.add_succ_r in Hl', Hp'. cbn [Nat.add]. auto.
Qed.

End PutKV.

Section PutKVProperties.

Variable env : Env.
Variable s : schemaVersionSyncer.
Variables (ctx : context) (key val : string).

(** A successful attempt ends the loop with nil. *)
Lemma putKV_loop_step_ok n e w :
  ctxLook env ctx (looks w) = None ->
  op_err env (ops w) = None ->
  putKV_loop env (S n) ctx key val e w =
  (None, mkWorld (store_put key val (others env (ops w) (store w)))
                 (S (looks w)) (S (ops w))
                 (EvPut (WithTimeout ctx keyOpDefaultTimeout) key val None ::
                  EvDone ctx None :: trace w)
                 (checkVersFirstWaitTime w)).
Proof.
  intros Hl Hp. cbn [putKV_loop]. unfold bind, ctxDone. rewrite Hl.
  unfold etcdPut, storeOp. cbn. rewrite Hp. reflexivity.
Qed.

(** An attempt that finds the context done ends the loop with the traced
    error of the context, and only the look is added to the world. *)
Lemma putKV_loop_step_done n e w ce :
  ctxLook env ctx (looks w) = Some ce ->
  putKV_loop env (S n) ctx key val e w =
  (Some (Traced ce),
   mkWorld (store w) (S (looks w)) (ops w) (EvDone ctx (Some ce) :: trace w)
           (checkVersFirstWaitTime w)).
Proof.
  intros Hl. cbn [putKV_loop]. unfold bind, ctxDone. rewrite Hl. reflexivity.
Qed.

(** C10: with a retry budget [retryCnt <= 0] the writer returns nil and
    leaves the world as it found it: no store write is made and the
    context is not looked at. *)
Theorem putKV_no_budget (retryCnt : Z) (w : World) :
  retryCnt <= 0 ->
  putKV env s ctx retryCnt key val w = (None, w).
Proof.
  intros H. unfold putKV.
  replace (Z.to_nat retryCnt) with 0%nat by lia. reflexivity.
Qed.

(** C2: for a budget [N >= 1], when the context is open at each of the [N]
    looks and the puts of attempts [1 .. N-1] fail, then: if the put of
    attempt [N] succeeds the writer returns nil after exactly [N] put
    attempts; if it fails with [e] the writer returns [e], traced, after
    exactly [N] put attempts. *)
Theorem putKV_bounded_retry (N : Z) (w : World) :
  1 <= N ->
  (forall j, (j < Z.to_nat N)%nat -> ctxLook env ctx (looks w + j) = None) ->
  (forall j, (j < Z.to_nat N - 1)%nat -> op_err env (ops w + j) <> None) ->
  let last := op_err env (ops w + (Z.to_nat N - 1)) in
  let run := putKV env s ctx N key val w in
  puts_in (trace (snd run)) = (puts_in (trace w) + Z.to_nat N)%nat /\
  ops (snd run) = (ops w + Z.to_nat N)%nat /\
  (last = None -> fst run = None) /\
  (forall e, last = Some e -> fst run = Some (Traced e)).
Proof.
  intros HN Hlook Hfail last run. subst last run. unfold putKV.
  remember (Z.to_nat N) as n eqn:Hn.
  destruct n as [|k]; [lia|]. clear HN Hn.
  replace (S k - 1)%nat with k in * by lia.
  assert (Hrun : putKV_loop env (S k) ctx key val None w =
                 putKV_loop env 1 ctx key val (errAfter env k None w)
                            (failedAttempts env ctx key val k w)).
  { replace (S k) with (k + 1)%nat by lia.
    apply putKV_loop_skip. intros j Hj; split; [apply Hlook | apply Hfail]; lia. }
  rewrite Hrun. clear Hrun.
  destruct (failedAttempts_counts env ctx key val k w) as (Ho & Hl & Hp & _).
  remember (failedAttempts env ctx key val k w) as wk eqn:Hwk. clear Hwk.
  assert (Hlk : ctxLook env ctx (looks wk) = None) by (rewrite Hl; apply Hlook; lia).
  destruct (op_err env (ops w + k)) as [e|] eqn:He.
  - rewrite putKV_loop_step_fail by (rewrite ?Ho, ?He; congruence).
    cbn [putKV_loop ret fst snd failedAttempt trace ops puts_in].
    rewrite Ho, Hp, He. repeat split; try lia; try congruence.
    intros e' [= <-]. reflexivity.
  - rewrite putKV_loop_step_ok by (rewrite ?Ho; assumption).
    cbn [fst snd trace ops puts_in]. rewrite Ho, Hp.
    repeat split; try lia; congruence.
Qed.

(** C5: when [k] attempts have failed and the context is found done at the
    start of the next attempt, the writer returns the error of the context,
    traced; the abort adds the look and nothing else to the world: no
    further put, no sleep. *)
Theorem putKV_abort_when_done (retryCnt : Z) (k : nat) (ce : error) (w : World) :
  (k < Z.to_nat retryCnt)%nat ->
  (forall j, (j < k)%nat ->
     ctxLook env ctx (looks w + j) = None /\ op_err env (ops w + j) <> None) ->
  ctxLook env ctx (looks w + k) = Some ce ->
  let before := failedAttempts env ctx key val k w in
  let run := putKV env s ctx retryCnt key val w in
  fst run = Some (Traced ce) /\
  trace (snd run) = EvDone ctx (Some ce) :: trace before /\
  store (snd run) = store before /\
  ops (snd run) = (ops w + k)%nat /\
  puts_in (trace (snd run)) = (puts_in (trace w) + k)%nat /\
  slept_in (trace (snd run)) = slept_in (trace w) + Z.of_nat k * putKeyRetryInterval.
Proof.
  intros Hk Hfail Hdone before run. subst before run. unfold putKV.
  replace (Z.to_nat retryCnt) with (k + S (Z.to_nat retryCnt - S k))%nat by lia.
  rewrite putKV_loop_skip by assumption.
  destruct (failedAttempts_counts env ctx key val k w) as (Ho & Hl & Hp & Hs).
  rewrite putKV_loop_step_done with (ce := ce) by (rewrite Hl; assumption).
  cbn [fst snd trace store ops puts_in slept_in].
  repeat split; assumption.
Qed.

End PutKVProperties.

Lemma putKV_no_budget_witness :
  putKV env_fail_all nodeA (Caller 0) 0 (selfSchemaVerPath nodeA) "7" w0 = (None, w0).
Proof. apply putKV_no_budget. lia. Defined.

Lemma putKV_bounded_retry_witness :
  let run := putKV (env_fail_first 2) nodeA (Caller 0) 3 (selfSchemaVerPath nodeA) "0" w0 in
  fst run = None /\ puts_in (trace (snd run)) = 3%nat.
Proof.
  destruct (putKV_bounded_retry (env_fail_first 2) nodeA (Caller 0)
              (selfSchemaVerPath nodeA) "0" 3 w0) as (Hputs & _ & Hok & _).
  - lia.
  - intros j _. reflexivity.
  - intros j Hj. change (Z.to_nat 3 - 1)%nat with 2%nat in Hj.
    destruct j as [|[|j]]; [discriminate | discriminate | lia].
  - split; [apply Hok; reflexivity | exact Hputs].
Defined.

(** A budget of three whose three puts all fail: the error of the third
    attempt comes back, traced. *)
Example putKV_all_fail :
  fst (putKV env_fail_all nodeA (Caller 0) 3 (selfSchemaVerPath nodeA) "0" w0)
  = Some (Traced (EtcdError "attempt 2")).
Proof. reflexivity. Qed.

Lemma putKV_abort_when_done_witness :
  let run := putKV (env_canceled_at 1) nodeA (Caller 0) 3 (selfSchemaVerPath nodeA) "0" w0 in
  fst run = Some (Traced Canceled) /\
  puts_in (trace (snd run)) = 1%nat /\
  slept_in (trace (snd run)) = putKeyRetryInterval.
Proof.
  destruct (putKV_abort_when_done (env_canceled_at 1) nodeA (Caller 0)
              (selfSchemaVerPath nodeA) "0" 3 1 Canceled w0)
    as (Hr & _ & _ & _ & Hp & Hs).
  - change (Z.to_nat 3) with 3%nat. lia.
  - intros j Hj. destruct j as [|j]; [split; [reflexivity | discriminate] | lia].
  - reflexivity.
  - repeat split; assumption.
Defined.

(** C4: [UpdateSelfVersion] looks at the context once.  If the context is
    done it returns its error, traced, and no put is made.  Otherwise it
    makes one put of the decimal text of the version to the self path of
    the node, under the per-attempt timeout, and returns nil if the put
    succeeds and the error of the put, traced, if it fails; no second
    attempt follows. *)
Theorem UpdateSelfVersion_single_attempt (env : Env) (s : schemaVersionSyncer)
    (ctx : context) (version : Z) (w : World) :
  let run := UpdateSelfVersion env s ctx version w in
  let put r := EvPut (WithTimeout ctx keyOpDefaultTimeout)
                     (selfSchemaVerPath s) (FormatInt version) r in
  (puts_in (trace (snd run)) <= puts_in (trace w) + 1)%nat /\
  match ctxLook env ctx (looks w), op_err env (ops w) with
  | Some ce, _ =>
      fst run = Some (Traced ce) /\
      trace (snd run) = EvDone ctx (Some ce) :: trace w
  | None, None =>
      fst run = None /\
      trace (snd run) = put None :: EvDone ctx None :: trace w
  | None, Some e =>
      fst run = Some (Traced e) /\
      trace (snd run) =
        EvSleep putKeyRetryInterval :: EvLog :: put (Some e) ::
        EvDone ctx None :: trace w
  end.
Proof.
  intros run put. subst run put.
  unfold UpdateSelfVersion, putKV.
  change (Z.to_nat putKeyNoRetry) with 1%nat.
  destruct (ctxLook env ctx (looks w)) as [ce|] eqn:Hl.
  - rewrite putKV_loop_step_done with (ce := ce) by assumption.
    cbn [fst snd trace puts_in]. split; [lia | split; reflexivity].
  - destruct (op_err env (ops w)) as [e|] eqn:He.
    + rewrite putKV_loop_step_fail by (rewrite ?He; congruence).
      cbn [putKV_loop ret fst snd failedAttempt trace puts_in Trace].
      rewrite He. split; [lia | split; reflexivity].
    + rewrite putKV_loop_step_ok by assumption.
      cbn [fst snd trace puts_in]. split; [lia | split; reflexivity].
Qed.

Example UpdateSelfVersion_ex :
  trace (snd (UpdateSelfVersion (env_fail_first 0) nodeA (Caller 0) 12 w0)) =
  [EvPut (WithTimeout (Caller 0) keyOpDefaultTimeout)
         "/tidb/ddl/all_schema_versions/node-a" "12" None;
   EvDone (Caller 0) None].
Proof. reflexivity. Qed.

(** ** Removing the self version *)

Section RemoveSelf.

Variable env : Env.

Lemma removeSelf_loop_step n ctx key e w :
  removeSelf_loop env (S n) ctx key e w =
  let w1 := mkWorld (others env (ops w) (store w)) (looks w) (S (ops w))
                    (EvDelete (WithTimeout ctx keyOpDefaultTimeout) key
                              (op_err env (ops w)) :: trace w)
                    (checkVersFirstWaitTime w) in
  match op_err env (ops w) with
  | None => (None, mkWorld (store_delete key (store w1)) (looks w1) (ops w1)
                           (trace w1) (checkVersFirstWaitTime w1))
  | Some e' => removeSelf_loop env n ctx key (Some e')
                 (mkWorld (store w1) (looks w1) (ops w1) (EvLog :: trace w1)
                          (checkVersFirstWaitTime w1))
  end.
Proof.
  cbn [removeSelf_loop]. unfold bind, etcdDelete, storeOp.
  destruct (op_err env (ops w)) as [e'|]; reflexivity.
Qed.

(** C3 (as the code has it): [RemoveSelfVersionPath] makes at most three
    delete attempts on the self path of the node, each under the
    per-attempt timeout on the background context, one right after the
    other: nothing is slept and no context is looked at.  It returns nil
    at the first attempt that succeeds and the error of the third
    attempt, traced, when all three fail. *)
Theorem RemoveSelfVersionPath_attempts (s : schemaVersionSyncer) (w : World) :
  let run := RemoveSelfVersionPath env s w in
  let del j := EvDelete (WithTimeout Background keyOpDefaultTimeout)
                        (selfSchemaVerPath s) (op_err env (ops w + j)) in
  (deletes_in (trace (snd run)) <= deletes_in (trace w) + 3)%nat /\
  slept_in (trace (snd run)) = slept_in (trace w) /\
  looks (snd run) = looks w /\
  match op_err env (ops w + 0), op_err env (ops w + 1), op_err env (ops w + 2) with
  | None, _, _ =>
      fst run = None /\ trace (snd run) = del 0%nat :: trace w
  | Some _, None, _ =>
      fst run = None /\
      trace (snd run) = del 1%nat :: EvLog :: del 0%nat :: trace w
  | Some _, Some _, None =>
      fst run = None /\
      trace (snd run) =
        del 2%nat :: EvLog :: del 1%nat :: EvLog :: del 0%nat :: trace w
  | Some _, Some _, Some e =>
      fst run = Some (Traced e) /\
      trace (snd run) =
        EvLog :: del 2%nat :: EvLog :: del 1%nat :: EvLog :: del 0%nat :: trace w
  end.
Proof.
  intros run del. subst run del.
  unfold RemoveSelfVersionPath.
  change (Z.to_nat keyOpDefaultRetryCnt) with 3%nat.
  replace (ops w + 0)%nat with (ops w) by lia.
  replace (ops w + 1)%nat with (S (ops w)) by lia.
  replace (ops w + 2)%nat with (S (S (ops w))) by lia.
  rewrite removeSelf_loop_step. cbn zeta.
  destruct (op_err env (ops w)) as [e0|] eqn:H0;
    [|cbn; repeat split; lia].
  rewrite removeSelf_loop_step. cbn zeta. cbn [ops].
  destruct (op_err env (S (ops w))) as [e1|] eqn:H1;
    [|cbn; rewrite ?H0; repeat split; lia].
  rewrite removeSelf_loop_step. cbn zeta. cbn [ops].
  destruct (op_err env (S (S (ops w)))) as [e2|] eqn:H2;
    cbn; rewrite ?H0, ?H1; repeat split; lia.
Qed.

End RemoveSelf.

(** C3 (as the spec has it) fails: when the three deletes fail, the three
    attempts follow one another with no delay between them. *)
Lemma RemoveSelfVersionPath_no_delay :
  let run := RemoveSelfVersionPath env_fail_all nodeA w0 in
  deletes_in (trace (snd run)) = 3%nat /\
  slept_in (trace (snd run)) = 0 /\
  deletes_spaced (trace (snd run)) true = false.
Proof. repeat split; reflexivity. Qed.

(** ** The convergence check *)

Lemma isContextFinished_spec (e : error) :
  isContextFinished (Some e) = true <->
  Cause e = Canceled \/ Cause e = DeadlineExceeded.
Proof.
  unfold isContextFinished, ErrorEqual. cbn [Cause].
  destruct (Cause e); cbn; intuition congruence.
Qed.

Lemma isContextFinished_nil : isContextFinished None = false.
Proof. reflexivity. Qed.

Section CheckLoopSteps.

Variable env : Env.
Variable ctx : context.
Variable latestVer : Z.

Lemma checkLoop_step_done fuel um w ce :
  ctxLook env ctx (looks w) = Some ce ->
  checkLoop env (S fuel) ctx latestVer um w =
  (Some (Some (Traced ce)), afterDone ctx ce w).
Proof.
  intros Hl. cbn [checkLoop]. unfold bind, ctxDone. rewrite Hl. reflexivity.
Qed.

Lemma checkLoop_step_fatal fuel um w e :
  ctxLook env ctx (looks w) = None ->
  op_err env (ops w) = Some e ->
  isContextFinished (Some e) = true ->
  checkLoop env (S fuel) ctx latestVer um w =
  (Some (Some (Traced e)), afterScan env ctx w).
Proof.
  intros Hl He Hf. cbn [checkLoop]. unfold bind, ctxDone. rewrite Hl.
  unfold etcdGet, afterScan. cbn. rewrite He, Hf. reflexivity.
Qed.

Lemma checkLoop_step_retry fuel um w e :
  ctxLook env ctx (looks w) = None ->
  op_err env (ops w) = Some e ->
  isContextFinished (Some e) = false ->
  checkLoop env (S fuel) ctx latestVer um w =
  checkLoop env fuel ctx latestVer um (addEvents [EvLog] (afterScan env ctx w)).
Proof.
  intros Hl He Hf. cbn [checkLoop]. unfold bind, ctxDone. rewrite Hl.
  unfold etcdGet, afterScan. cbn. rewrite He, Hf. reflexivity.
Qed.

Lemma checkLoop_step_converged fuel um w :
  ctxLook env ctx (looks w) = None ->
  op_err env (ops w) = None ->
  fst (checkRound latestVer (scanned env w) um) = true ->
  checkLoop env (S fuel) ctx latestVer um w =
  (Some None, afterScan env ctx w).
Proof.
  intros Hl He Hr. cbn [checkLoop]. unfold bind, ctxDone. rewrite Hl.
  unfold etcdGet, afterScan. cbn. rewrite He. cbn.
  fold (scanned env w). rewrite Hr. reflexivity.
Qed.

Lemma checkLoop_step_again fuel um w :
  ctxLook env ctx (looks w) = None ->
  op_err env (ops w) = None ->
  fst (checkRound latestVer (scanned env w) um) = false ->
  checkLoop env (S fuel) ctx latestVer um w =
  checkLoop env fuel ctx latestVer
    (snd (checkRound latestVer (scanned env w) um))
    (addEvents [EvSleep checkVersInterval; EvLog] (afterScan env ctx w)).
Proof.
  intros Hl He Hr. cbn [checkLoop]. unfold bind, ctxDone. rewrite Hl.
  unfold etcdGet, afterScan. cbn. rewrite He. cbn.
  fold (scanned env w). rewrite Hr. reflexivity.
Qed.

End CheckLoopSteps.

(** ** One round over a scan *)

Section Rounds.

Variable latestVer : Z.

Lemma checkRound_app pre : forall rest um,
  checkRound latestVer (pre ++ rest) um =
  if fst (checkRound latestVer pre um)
  then checkRound latestVer rest (snd (checkRound latestVer pre um))
  else (false, snd (checkRound latestVer pre um)).
Proof.
  induction pre as [|kv pre IH]; intros rest um; cbn [app checkRound].
  - cbn. now destruct (checkRound latestVer rest um).
  - destruct (decide (Key kv ∈ um)); [apply IH|].
    destruct (Atoi (Value kv)) as [ver|]; [|reflexivity].
    destruct (negb (ver =? latestVer)); [reflexivity | apply IH].
Qed.

Lemma checkRound_mono kvs : forall um,
  um ⊆ snd (checkRound latestVer kvs um).
Proof.
  induction kvs as [|kv kvs IH]; intros um; cbn [checkRound]; [set_solver|].
  destruct (decide (Key kv ∈ um)); [apply IH|].
  destruct (Atoi (Value kv)) as [ver|]; [|set_solver].
  destruct (negb (ver =? latestVer)); [set_solver|].
  specialize (IH ({[Key kv]} ∪ um)). set_solver.
Qed.

Lemma memoOf_mono earlier um : um ⊆ memoOf latestVer earlier um.
Proof.
  induction earlier as [|kvs earlier IH]; cbn [memoOf fold_right]; [set_solver|].
  fold (memoOf latestVer earlier um).
  pose proof (checkRound_mono kvs (memoOf latestVer earlier um)). set_solver.
Qed.

Lemma memoOf_app later earlier um :
  memoOf latestVer (later ++ earlier) um =
  memoOf latestVer later (memoOf latestVer earlier um).
Proof. unfold memoOf. apply fold_right_app. Qed.

Lemma same_outside_mono um um' kvs kvs' :
  um ⊆ um' -> same_outside um kvs kvs' -> same_outside um' kvs kvs'.
Proof.
  intros Hsub H. induction H as [|a b l l' [Hk Hv] _ IH]; constructor; [|exact IH].
  split; [exact Hk|]. intros Hn. apply Hv. set_solver.
Qed.

Lemma checkRound_same_outside kvs kvs' :
  forall um, same_outside um kvs kvs' ->
  checkRound latestVer kvs um = checkRound latestVer kvs' um.
Proof.
  intros um H. revert H. revert um.
  induction kvs as [|a kvs IH] in kvs' |- *; intros um H; inversion H as [|? b ? l' [Hk Hv] Hrest]; subst.
  - reflexivity.
  - cbn [checkRound]. rewrite <- Hk.
    destruct (decide (Key a ∈ um)) as [Hin|Hn]; [now apply IH|].
    rewrite <- (Hv Hn).
    destruct (Atoi (Value a)) as [ver|]; [|reflexivity].
    destruct (negb (ver =? latestVer)); [reflexivity|].
    apply IH. eapply same_outside_mono; [|exact Hrest]. set_solver.
Qed.

End Rounds.

Section Malformed.

Variable env : Env.
Variable ctx : context.
Variable latestVer : Z.

(** C6: in an iteration that finds the context open and whose scan
    succeeds, let the round reach a record [kv] (all the records [pre]
    before it pass) whose node is not in the ConvergenceSet and whose value
    does not read as an integer.  Then the round fails and ends at [kv]:
    the records [rest] after it are not looked at.  The call does not
    return: it writes the log line, sleeps the polling interval and goes to
    the next iteration. *)
Theorem malformed_record_keeps_polling (fuel : nat) (um : gset string)
    (w : World) (pre rest : list KeyValue) (kv : KeyValue) :
  ctxLook env ctx (looks w) = None ->
  op_err env (ops w) = None ->
  scanned env w = pre ++ kv :: rest ->
  fst (checkRound latestVer pre um) = true ->
  Key kv ∉ snd (checkRound latestVer pre um) ->
  Atoi (Value kv) = None ->
  let um' := snd (checkRound latestVer pre um) in
  checkRound latestVer (pre ++ kv :: rest) um = (false, um') /\
  checkLoop env (S fuel) ctx latestVer um w =
  checkLoop env fuel ctx latestVer um'
    (addEvents [EvSleep checkVersInterval; EvLog] (afterScan env ctx w)).
Proof.
  intros Hl He Hscan Hpre Hkey Hval um'. subst um'.
  assert (Hround : checkRound latestVer (pre ++ kv :: rest) um =
                   (false, snd (checkRound latestVer pre um))).
  { rewrite checkRound_app, Hpre. cbn [checkRound].
    destruct (decide (Key kv ∈ snd (checkRound latestVer pre um))); [contradiction|].
    now rewrite Hval. }
  split; [exact Hround|].
  rewrite checkLoop_step_again by (rewrite ?Hscan, ?Hround; auto).
  now rewrite Hscan, Hround.
Qed.

End Malformed.

(** ** The result of the convergence check *)

Lemma scans_in_app (a b : list Event) :
  scans_in (a ++ b) = scans_in a ++ scans_in b.
Proof.
  induction a as [|ev a IH]; [reflexivity|].
  destruct ev as [| | |c p kvs [e|] | | | |]; cbn [app scans_in]; rewrite IH; reflexivity.
Qed.

Lemma NoDup_map_filter {A B} (f : A -> B) (p : A -> bool) (l : list A) :
  NoDup (map f l) -> NoDup (map f (List.filter p l)).
Proof.
  induction l as [|a l IH]; cbn [map List.filter]; intros H; [constructor|].
  apply NoDup_cons in H as [Hn Hd].
  destruct (p a); [|now apply IH].
  cbn [map]. apply NoDup_cons. split; [|now apply IH].
  intros Hin. apply Hn.
  apply list_elem_of_In in Hin. apply list_elem_of_In.
  apply in_map_iff in Hin as (x & Hx & Hin).
  apply in_map_iff. exists x. split; [exact Hx|].
  apply filter_In in Hin. tauto.
Qed.

Section Passing.

Variable latestVer : Z.

Lemma passes_insert (k : string) (um : gset string) (rest : list KeyValue) :
  k ∉ map Key rest ->
  Forall (passes latestVer ({[k]} ∪ um)) rest <-> Forall (passes latestVer um) rest.
Proof.
  intros Hk. induction rest as [|x rest IH]; [split; constructor|].
  cbn [map] in Hk. apply not_elem_of_cons in Hk as [Hne Hk].
  split; intros H; apply Forall_cons_1 in H as [[Hx|Hx] Hr];
    (apply Forall_cons; split; [|now apply IH]);
    try (now right); left.
  - apply elem_of_union in Hx as [Hx|Hx]; [|exact Hx].
    apply elem_of_singleton in Hx. congruence.
  - apply elem_of_union. now right.
Qed.

(** With distinct keys, a round succeeds exactly when every record of the
    scan passes against the set the round started from. *)
Lemma checkRound_true_iff (kvs : list KeyValue) : forall um,
  NoDup (map Key kvs) ->
  fst (checkRound latestVer kvs um) = true <-> Forall (passes latestVer um) kvs.
Proof.
  induction kvs as [|kv kvs IH]; intros um Hnd; cbn [checkRound].
  - split; [constructor | reflexivity].
  - cbn [map] in Hnd. apply NoDup_cons in Hnd as [Hn Hd].
    destruct (decide (Key kv ∈ um)) as [Hin|Hout].
    + rewrite (IH um Hd). split; intros H.
      * apply Forall_cons; split; [now left | exact H].
      * now apply Forall_cons_1 in H.
    + destruct (Atoi (Value kv)) as [ver|] eqn:Ha.
      * destruct (Z.eqb_spec ver latestVer) as [->|Hne]; cbn [negb fst].
        -- rewrite (IH _ Hd), (passes_insert _ _ _ Hn). split; intros H.
           ++ apply Forall_cons; split; [now right | exact H].
           ++ now apply Forall_cons_1 in H.
        -- split; [discriminate|]. intros H. apply Forall_cons_1 in H as [[?|Hh] _].
           ++ contradiction.
           ++ unfold holds in Hh. congruence.
      * cbn [fst]. split; [discriminate|]. intros H.
        apply Forall_cons_1 in H as [[?|Hh] _]; [contradiction|].
        unfold holds in Hh. congruence.
Qed.

End Passing.

Section MemoHeld.

Variable latestVer : Z.

Lemma checkRound_sound kvs : forall um k,
  k ∈ snd (checkRound latestVer kvs um) ->
  k ∈ um \/ exists kv, In kv kvs /\ Key kv = k /\ holds latestVer kv.
Proof.
  induction kvs as [|kv kvs IH]; intros um k Hk; cbn [checkRound] in Hk; [now left|].
  destruct (decide (Key kv ∈ um)) as [Hin|Hout].
  { apply IH in Hk as [Hk | (x & Hx & Hkx & Hh)]; [now left|].
    right. exists x. split; [now right | now split]. }
  destruct (Atoi (Value kv)) as [ver|] eqn:Ha; [|now left].
  destruct (Z.eqb_spec ver latestVer) as [->|Hne]; cbn [negb] in Hk; [|now left].
  apply IH in Hk as [Hk | (x & Hx & Hkx & Hh)].
  - apply elem_of_union in Hk as [Hk|Hk]; [|now left].
    apply elem_of_singleton in Hk. right. exists kv.
    split; [now left | split; [now symmetry | exact Ha]].
  - right. exists x. split; [now right | now split].
Qed.

(** Every node in the set of a call had a record that held the version in
    one of the scans of the call. *)
Lemma memoOf_sound scans : forall k,
  k ∈ memoOf latestVer scans ∅ ->
  exists kvs kv, In kvs scans /\ In kv kvs /\ Key kv = k /\ holds latestVer kv.
Proof.
  induction scans as [|kvs scans IH]; intros k Hk; cbn [memoOf fold_right] in Hk.
  - now apply not_elem_of_empty in Hk.
  - fold (memoOf latestVer scans ∅) in Hk.
    apply checkRound_sound in Hk as [Hk | (kv & Hin & Hkey & Hh)].
    + destruct (IH k Hk) as (kvs' & kv & H1 & H2 & H3 & H4).
      exists kvs', kv. split; [now right | now repeat split].
    + exists kvs, kv. split; [now left | now repeat split].
Qed.

End MemoHeld.

Section ScanErrors.

Variable env : Env.
Variable ctx : context.
Variable latestVer : Z.

(** C7: in an iteration that finds the context open and whose scan fails
    with [e]: when [e] is a cancellation or deadline error (under its
    wrappers it is [Canceled] or [DeadlineExceeded]) the call returns [e],
    traced, right after the scan; for any other [e] the next iteration
    starts after the log line alone, with nothing slept.  After a scan
    that succeeds and a round that fails (some record is of a node outside
    the ConvergenceSet and does not read as the version), the next
    iteration starts after a sleep of the polling interval. *)
Theorem scan_error_handling (fuel : nat) (um : gset string) (w : World) :
  ctxLook env ctx (looks w) = None ->
  let w1 := afterScan env ctx w in
  let run := checkLoop env (S fuel) ctx latestVer um w in
  (forall e, op_err env (ops w) = Some e ->
     context_error e ->
     run = (Some (Some (Traced e)), w1)) /\
  (forall e, op_err env (ops w) = Some e ->
     ~ context_error e ->
     run = checkLoop env fuel ctx latestVer um (addEvents [EvLog] w1) /\
     slept_in (trace (addEvents [EvLog] w1)) = slept_in (trace w)) /\
  (op_err env (ops w) = None ->
     fst (checkRound latestVer (scanned env w) um) = false ->
     let w2 := addEvents [EvSleep checkVersInterval; EvLog] w1 in
     run = checkLoop env fuel ctx latestVer
             (snd (checkRound latestVer (scanned env w) um)) w2 /\
     slept_in (trace w2) = slept_in (trace w) + checkVersInterval) /\
  (op_err env (ops w) = None ->
     NoDup (map Key (scanned env w)) ->
     Exists (fun kv => ~ passes latestVer um kv) (scanned env w) ->
     let w2 := addEvents [EvSleep checkVersInterval; EvLog] w1 in
     run = checkLoop env fuel ctx latestVer
             (snd (checkRound latestVer (scanned env w) um)) w2 /\
     slept_in (trace w2) = slept_in (trace w) + checkVersInterval).
Proof.
  intros Hl w1 run. subst w1 run. split; [|split; [|split]].
  - intros e He Hf. apply isContextFinished_spec in Hf.
    now apply checkLoop_step_fatal.
  - intros e He Hf. split.
    + apply checkLoop_step_retry with (e := e); [assumption | assumption |].
      destruct (isContextFinished (Some e)) eqn:Hc; [|reflexivity].
      apply isContextFinished_spec in Hc. contradiction.
    + cbn. reflexivity.
  - intros He Hr w2. subst w2. split.
    + now apply checkLoop_step_again.
    + cbn. lia.
  - intros He Hnd Hex w2. subst w2.
    assert (Hr : fst (checkRound latestVer (scanned env w) um) = false).
    { destruct (fst (checkRound latestVer (scanned env w) um)) eqn:Hr; [|reflexivity].
      apply checkRound_true_iff in Hr; [|assumption]. exfalso.
      apply Exists_exists in Hex as (x & Hin & Hnp).
      rewrite Forall_forall in Hr. now apply Hnp, Hr. }
    split.
    + now apply checkLoop_step_again.
    + cbn. lia.
Qed.

End ScanErrors.

Section CheckAll.

Variable env : Env.
Variable ctx : context.
Variable latestVer : Z.

Lemma scanned_NoDup w :
  keyspace_ok env -> store_ok w -> NoDup (map Key (scanned env w)).
Proof. intros H Hw. apply NoDup_map_filter, H, Hw. Qed.

Lemma afterScan_ok w evs :
  keyspace_ok env -> store_ok w -> store_ok (addEvents evs (afterScan env ctx w)).
Proof. intros H Hw. apply H, Hw. Qed.

(** What a run of the loop that returns has done: the scans it has made,
    and the round over the newest of them, decide the result. *)
Lemma checkLoop_returns fuel : forall um w r w',
  keyspace_ok env -> store_ok w ->
  checkLoop env fuel ctx latestVer um w = (Some r, w') ->
  exists new,
    trace w' = new ++ trace w /\
    Forall (fun kvs => NoDup (map Key kvs)) (scans_in new) /\
    ends_with ctx r new /\
    match r with
    | None =>
        exists kvs earlier, scans_in new = kvs :: earlier /\
          fst (checkRound latestVer kvs (memoOf latestVer earlier um)) = true
    | Some _ =>
        forall kvs earlier, scans_in new = kvs :: earlier ->
          fst (checkRound latestVer kvs (memoOf latestVer earlier um)) = false
    end.
Proof.
  induction fuel as [|fuel IH]; intros um w r w' Hks Hw Hrun; [discriminate|].
  destruct (ctxLook env ctx (looks w)) as [ce|] eqn:Hl.
  { rewrite checkLoop_step_done with (ce := ce) in Hrun by assumption.
    injection Hrun as <- <-. exists [EvDone ctx (Some ce)].
    cbn. repeat split; [constructor | eauto 6 | discriminate]. }
  destruct (op_err env (ops w)) as [e|] eqn:He.
  { destruct (isContextFinished (Some e)) eqn:Hf.
    - rewrite checkLoop_step_fatal with (e := e) in Hrun by assumption.
      injection Hrun as <- <-.
      exists [EvGet ctx ddlAllSchemaVersions [] (Some e); EvDone ctx None].
      unfold afterScan. rewrite He. cbn.
      apply isContextFinished_spec in Hf. fold (context_error e) in Hf.
      repeat split; [constructor | eauto 7 | discriminate].
    - rewrite checkLoop_step_retry with (e := e) in Hrun by assumption.
      apply IH in Hrun as (new & Htr & Hnd & Hend & Hres);
        [|assumption|now apply afterScan_ok].
      exists (new ++ [EvLog; EvGet ctx ddlAllSchemaVersions [] (Some e); EvDone ctx None]).
      unfold afterScan, addEvents in Htr. rewrite He in Htr. cbn in Htr.
      rewrite Htr, <- app_assoc, scans_in_app. cbn [scans_in]. rewrite app_nil_r.
      repeat split; [assumption | | assumption].
      destruct r as [te|]; [|exact I].
      destruct Hend as (e0 & rest & -> & [-> | [Hcf ->]]); cbn; eauto 8. }
  destruct (fst (checkRound latestVer (scanned env w) um)) eqn:Hr.
  - rewrite checkLoop_step_converged in Hrun by assumption.
    injection Hrun as <- <-.
    exists [EvGet ctx ddlAllSchemaVersions (scanned env w) None; EvDone ctx None].
    unfold afterScan. rewrite He. cbn.
    repeat split; [| exists (scanned env w), []; split; [reflexivity | exact Hr]].
    constructor; [now apply scanned_NoDup | constructor].
  - rewrite checkLoop_step_again in Hrun by assumption.
    apply IH in Hrun as (new & Htr & Hnd & Hend & Hres);
      [|assumption|now apply afterScan_ok].
    exists (new ++ [EvSleep checkVersInterval; EvLog;
                    EvGet ctx ddlAllSchemaVersions (scanned env w) None;
                    EvDone ctx None]).
    unfold afterScan, addEvents in Htr. rewrite He in Htr. cbn in Htr.
    rewrite Htr, <- app_assoc, scans_in_app. cbn [scans_in app].
    split; [reflexivity|]. split; [|split].
    + apply Forall_app. split; [assumption|].
      constructor; [now apply scanned_NoDup | constructor].
    + destruct r as [te|]; [|exact I].
      destruct Hend as (e0 & rest & -> & [-> | [Hcf ->]]); cbn; eauto 8.
    + destruct r as [te|].
      * intros kvs earlier Heq.
        destruct (scans_in new) as [|k e'] eqn:Hs.
        -- cbn in Heq. injection Heq as <- <-. exact Hr.
        -- cbn in Heq. injection Heq as <- <-.
           rewrite memoOf_app. cbn [memoOf fold_right]. now apply Hres.
      * destruct Hres as (kvs & earlier & -> & Hok).
        exists kvs, (earlier ++ [scanned env w]). split; [reflexivity|].
        rewrite memoOf_app. exact Hok.
Qed.

(** Once a look finds the context done, the loop returns: fuel for one
    iteration more than the looks before that one is enough. *)
Lemma checkLoop_done_returns k : forall fuel um w ce,
  ctxLook env ctx (looks w + k) = Some ce ->
  (k < fuel)%nat ->
  exists r w', checkLoop env fuel ctx latestVer um w = (Some r, w').
Proof.
  induction k as [|k IH]; intros fuel um w ce Hdone Hk;
    (destruct fuel as [|fuel]; [lia|]).
  - rewrite Nat.add_0_r in Hdone.
    rewrite checkLoop_step_done with (ce := ce) by assumption. eauto.
  - destruct (ctxLook env ctx (looks w)) as [ce0|] eqn:Hl.
    { rewrite checkLoop_step_done with (ce := ce0) by assumption. eauto. }
    rewrite Nat.add_succ_r in Hdone.
    destruct (op_err env (ops w)) as [e|] eqn:He.
    { destruct (isContextFinished (Some e)) eqn:Hf.
      - rewrite checkLoop_step_fatal with (e := e) by assumption. eauto.
      - rewrite checkLoop_step_retry with (e := e) by assumption.
        apply IH with (ce := ce); [exact Hdone | lia]. }
    destruct (fst (checkRound latestVer (scanned env w) um)) eqn:Hr.
    + rewrite checkLoop_step_converged by assumption. eauto.
    + rewrite checkLoop_step_again by assumption.
      apply IH with (ce := ce); [exact Hdone | lia].
Qed.

(** A result does not depend on the fuel that is left over. *)
Lemma checkLoop_more_fuel fuel : forall um w r w' n,
  checkLoop env fuel ctx latestVer um w = (Some r, w') ->
  checkLoop env (fuel + n) ctx latestVer um w = (Some r, w').
Proof.
  induction fuel as [|fuel IH]; intros um w r w' n Hrun; [discriminate|].
  cbn [Nat.add].
  destruct (ctxLook env ctx (looks w)) as [ce|] eqn:Hl.
  { rewrite checkLoop_step_done with (ce := ce) in * by assumption. exact Hrun. }
  destruct (op_err env (ops w)) as [e|] eqn:He.
  { destruct (isContextFinished (Some e)) eqn:Hf.
    - rewrite checkLoop_step_fatal with (e := e) in * by assumption. exact Hrun.
    - rewrite checkLoop_step_retry with (e := e) in * by assumption. now apply IH. }
  destruct (fst (checkRound latestVer (scanned env w) um)) eqn:Hr.
  - rewrite checkLoop_step_converged in * by assumption. exact Hrun.
  - rewrite checkLoop_step_again in * by assumption. now apply IH.
Qed.

(** A run that has spent its fuel has made that many iterations; with
    more fuel the loop goes on from the world and the set it has reached. *)
Lemma checkLoop_spent fuel : forall um w w',
  keyspace_ok env -> store_ok w ->
  checkLoop env fuel ctx latestVer um w = (None, w') ->
  exists new,
    trace w' = new ++ trace w /\ store_ok w' /\
    forall n, checkLoop env (fuel + n) ctx latestVer um w =
              checkLoop env n ctx latestVer (memoOf latestVer (scans_in new) um) w'.
Proof.
  induction fuel as [|fuel IH]; intros um w w' Hks Hw Hrun.
  { injection Hrun as <-. exists []. split; [reflexivity | split; [exact Hw | reflexivity]]. }
  destruct (ctxLook env ctx (looks w)) as [ce|] eqn:Hl.
  { rewrite checkLoop_step_done with (ce := ce) in Hrun by assumption. discriminate. }
  destruct (op_err env (ops w)) as [e|] eqn:He.
  { destruct (isContextFinished (Some e)) eqn:Hf.
    - rewrite checkLoop_step_fatal with (e := e) in Hrun by assumption. discriminate.
    - rewrite checkLoop_step_retry with (e := e) in Hrun by assumption.
      apply IH in Hrun as (new & Htr & Hok & Hgo);
        [|assumption|now apply afterScan_ok].
      exists (new ++ [EvLog; EvGet ctx ddlAllSchemaVersions [] (Some e); EvDone ctx None]).
      unfold afterScan, addEvents in Htr. rewrite He in Htr. cbn in Htr.
      rewrite Htr, <- app_assoc, scans_in_app. cbn [scans_in]. rewrite app_nil_r.
      split; [reflexivity|]. split; [exact Hok|]. intros n. cbn [Nat.add].
      rewrite checkLoop_step_retry with (e := e) by assumption. apply Hgo. }
  destruct (fst (checkRound latestVer (scanned env w) um)) eqn:Hr.
  - rewrite checkLoop_step_converged in Hrun by assumption. discriminate.
  - rewrite checkLoop_step_again in Hrun by assumption.
    apply IH in Hrun as (new & Htr & Hok & Hgo);
      [|assumption|now apply afterScan_ok].
    exists (new ++ [EvSleep checkVersInterval; EvLog;
                    EvGet ctx ddlAllSchemaVersions (scanned env w) None;
                    EvDone ctx None]).
    unfold afterScan, addEvents in Htr. rewrite He in Htr. cbn in Htr.
    rewrite Htr, <- app_assoc, scans_in_app. cbn [scans_in app].
    split; [reflexivity|]. split; [exact Hok|]. intros n. cbn [Nat.add].
    rewrite checkLoop_step_again by assumption.
    rewrite memoOf_app. apply Hgo.
Qed.

End CheckAll.

Lemma keyspace_ok_steady : keyspace_ok env_steady.
Proof.
  intros n st _. cbn. destruct (n =? 0)%nat; cbn;
    apply (bool_decide_unpack _); vm_compute; exact I.
Defined.

(** C1: let no record leave the version during the wait ([stays]).  Then a
    call that returns has returned nil exactly when every record of its
    last successful scan reads as [latestVer].  Without that condition a
    nil still means that every record of the last scan reads as
    [latestVer] or belongs to a node whose record did so at an earlier scan
    of the call, and records that all read as [latestVer] still mean nil.
    Any other result is a traced error: the error of the context that a
    look has found done, or a cancellation or deadline error of the scan.
    The call does return nil in the iteration that finds the context open
    and whose scan succeeds with every record reading as [latestVer], and
    it does return, at the latest, in the iteration whose look finds the
    context done.  Fuel that is left over changes nothing. *)
Theorem OwnerCheckAllVersions_result (env : Env) (s : schemaVersionSyncer)
    (ctx : context) (latestVer : Z) (w : World) :
  keyspace_ok env -> store_ok w ->
  let call fuel := OwnerCheckAllVersions env fuel s ctx latestVer w in
  (forall fuel r w' new,
     call fuel = (Some r, w') ->
     trace w' = new ++ trace w ->
     (stays latestVer (scans_in new) ->
      (r = None <->
       exists kvs earlier, scans_in new = kvs :: earlier /\
         Forall (holds latestVer) kvs)) /\
     (r = None ->
      exists kvs earlier, scans_in new = kvs :: earlier /\
        Forall (fun kv => holds latestVer kv \/ held_before latestVer earlier kv) kvs) /\
     ((exists kvs earlier, scans_in new = kvs :: earlier /\
         Forall (holds latestVer) kvs) -> r = None) /\
     ends_with ctx r new) /\
  (forall k wk,
     call k = (None, wk) ->
     ctxLook env ctx (looks wk) = None ->
     op_err env (ops wk) = None ->
     Forall (holds latestVer) (scanned env wk) ->
     fst (call (S k)) = Some None) /\
  (forall k ce fuel,
     ctxLook env ctx (looks w + k) = Some ce ->
     (k < fuel)%nat ->
     exists r w', call fuel = (Some r, w')) /\
  (forall fuel r w' n,
     call fuel = (Some r, w') -> call (fuel + n)%nat = (Some r, w')).
Proof.
  intros Hks Hw call. subst call. cbn beta. split; [|split; [|split]].
  - intros fuel r w' new Hrun Htrace. unfold OwnerCheckAllVersions, bind in Hrun.
    cbn [timeSleep emit] in Hrun.
    apply checkLoop_returns in Hrun as (new0 & Htr & Hnd & Hend & Hres);
      [|assumption|exact Hw].
    cbn [trace] in Htr.
    assert (Hnew : new = new0 ++ [EvSleep (checkVersFirstWaitTime w)]).
    { apply (app_inv_tail (trace w)). rewrite <- Htrace, Htr, <- app_assoc. reflexivity. }
    subst new. rewrite scans_in_app. cbn [scans_in]. rewrite app_nil_r.
    assert (Hsound : r = None ->
              exists kvs earlier, scans_in new0 = kvs :: earlier /\
                Forall (fun kv => holds latestVer kv \/
                                  held_before latestVer earlier kv) kvs).
    { intros ->. destruct Hres as (kvs & earlier & Hs & Hok).
      exists kvs, earlier. split; [exact Hs|].
      rewrite Hs in Hnd. apply Forall_cons_1 in Hnd as [Hnd _].
      apply (checkRound_true_iff latestVer kvs _ Hnd) in Hok.
      eapply Forall_impl; [exact Hok|].
      intros kv [Hin|Hh]; [right | now left].
      apply memoOf_sound in Hin as (kvs' & kv' & H1 & H2 & H3 & H4).
      exists kvs', kv'. now repeat split. }
    assert (Hcomplete : (exists kvs earlier, scans_in new0 = kvs :: earlier /\
                           Forall (holds latestVer) kvs) -> r = None).
    { intros (kvs & earlier & Hs & Hall).
      destruct r as [te|]; [|reflexivity].
      specialize (Hres kvs earlier Hs).
      rewrite Hs in Hnd. apply Forall_cons_1 in Hnd as [Hnd _].
      assert (Hok : fst (checkRound latestVer kvs (memoOf latestVer earlier ∅)) = true).
      { apply (checkRound_true_iff latestVer kvs _ Hnd).
        eapply Forall_impl; [exact Hall|]. intros kv Hh. now right. }
      congruence. }
    split; [|split; [exact Hsound | split; [exact Hcomplete|]]].
    + intros Hstays. split; [|exact Hcomplete].
      intros Hnil. destruct (Hsound Hnil) as (kvs & earlier & Hs & Hall).
      exists kvs, earlier. split; [exact Hs|].
      apply Forall_forall. intros kv Hin.
      rewrite Forall_forall in Hall. destruct (Hall kv Hin) as [Hh|Hb]; [exact Hh|].
      apply (Hstays [] kvs earlier kv); [exact Hs | now apply list_elem_of_In | exact Hb].
    + destruct r as [te|]; [|exact I].
      destruct Hend as (e0 & rest & -> & [-> | [Hcf ->]]); cbn; eauto 8.
  - intros k wk Hrun Hl He Hall.
    unfold OwnerCheckAllVersions, bind in *. cbn [timeSleep emit] in *.
    apply checkLoop_spent in Hrun as (new' & Htr' & Hok & Hgo);
      [|assumption|exact Hw].
    replace (S k) with (k + 1)%nat by lia. rewrite Hgo.
    rewrite checkLoop_step_converged; [reflexivity | assumption | assumption |].
    apply checkRound_true_iff; [now apply scanned_NoDup |].
    eapply Forall_impl; [exact Hall|]. intros kv Hh. now right.
  - intros k ce fuel Hdone Hk. unfold OwnerCheckAllVersions, bind.
    cbn [timeSleep emit].
    apply checkLoop_done_returns with (k := k) (ce := ce); [exact Hdone | exact Hk].
  - intros fuel r w' n Hrun. unfold OwnerCheckAllVersions, bind in *.
    cbn [timeSleep emit] in *. now apply checkLoop_more_fuel.
Qed.

Lemma OwnerCheckAllVersions_result_witness :
  keyspace_ok env_steady /\ store_ok w0 /\
  stays 5 (scans_in (trace (snd (OwnerCheckAllVersions env_steady 2 nodeA (Caller 0) 5 w0)))) /\
  (@None error = None <->
   exists kvs earlier,
     scans_in (trace (snd (OwnerCheckAllVersions env_steady 2 nodeA (Caller 0) 5 w0)))
     = kvs :: earlier /\
     Forall (holds 5) kvs).
Proof.
  assert (Hstays : stays 5 (scans_in (trace (snd (OwnerCheckAllVersions env_steady 2 nodeA
                                                    (Caller 0) 5 w0))))).
  { change (scans_in (trace (snd (OwnerCheckAllVersions env_steady 2 nodeA (Caller 0) 5 w0))))
      with [[mkKV pathA "5"; mkKV pathB "5"]; [mkKV pathA "5"; mkKV pathB "4"]].
    intros later kvs earlier kv Heq Hin Hheld.
    destruct later as [|l1 [|l2 [|l3 later]]]; cbn in Heq.
    - injection Heq as <- <-. destruct Hin as [<-|[<-|[]]]; reflexivity.
    - injection Heq as _ <- <-. destruct Hheld as (kvs' & _ & [] & _).
    - discriminate Heq.
    - discriminate Heq. }
  split; [exact keyspace_ok_steady|]. split; [constructor|]. split; [exact Hstays|].
  refine (proj1 (proj1 (OwnerCheckAllVersions_result env_steady nodeA (Caller 0) 5 w0
                          keyspace_ok_steady (@NoDup_nil_2 string))
                   2%nat None
                   (snd (OwnerCheckAllVersions env_steady 2 nodeA (Caller 0) 5 w0))
                   (trace (snd (OwnerCheckAllVersions env_steady 2 nodeA (Caller 0) 5 w0)))
                   _ _) Hstays).
  - vm_compute. reflexivity.
  - symmetry. apply app_nil_r.
Defined.

(** The condition [stays] cannot be dropped.  In [env_restart] node a is
    at version 5 at the first scan, then starts again and its [Init]
    writes "0" to its record: the record has left the version.  Node a is
    in the ConvergenceSet by then and its record is not read again, so the
    call returns nil at its second scan, which shows node a at 0. *)
Lemma OwnerCheckAllVersions_stale_record :
  let run := OwnerCheckAllVersions env_restart 2 nodeA (Caller 0) 5 w0 in
  fst run = Some None /\
  scans_in (trace (snd run)) =
    [[mkKV pathA "0"; mkKV pathB "5"]; [mkKV pathA "5"; mkKV pathB "4"]] /\
  ~ Forall (holds 5) [mkKV pathA "0"; mkKV pathB "5"] /\
  ~ stays 5 (scans_in (trace (snd run))).
Proof.
  split; [vm_compute; reflexivity|]. split; [vm_compute; reflexivity|]. split.
  - intros H. apply Forall_cons_1 in H as [H _]. vm_compute in H. discriminate.
  - change (scans_in (trace (snd (OwnerCheckAllVersions env_restart 2 nodeA (Caller 0) 5 w0))))
      with [[mkKV pathA "0"; mkKV pathB "5"]; [mkKV pathA "5"; mkKV pathB "4"]].
    intros H.
    specialize (H [] [mkKV pathA "0"; mkKV pathB "5"] [[mkKV pathA "5"; mkKV pathB "4"]]
                  (mkKV pathA "0") eq_refl (or_introl eq_refl)).
    assert (Hb : held_before 5 [[mkKV pathA "5"; mkKV pathB "4"]] (mkKV pathA "0")).
    { exists [mkKV pathA "5"; mkKV pathB "4"], (mkKV pathA "5").
      repeat split; [now left | now left]. }
    specialize (H Hb). vm_compute in H. discriminate.
Qed.

(** ** Bootstrap of the global version *)

Lemma string_compare_refl (k : string) : String.compare k k = Eq.
Proof.
  pose proof (String.compare_antisym k k) as H.
  destruct (String.compare k k); [reflexivity | discriminate | discriminate].
Qed.

Lemma store_lookup_put_eq k v s : store_lookup k (store_put k v s) = Some v.
Proof.
  induction s as [|kv s IH]; cbn [store_put store_lookup Key Value].
  - now rewrite String.eqb_refl.
  - destruct (String.compare k (Key kv)) eqn:Hc; cbn [store_lookup Key Value].
    + now rewrite String.eqb_refl.
    + now rewrite String.eqb_refl.
    + destruct (String.eqb_spec k (Key kv)) as [->|Hne]; [|exact IH].
      rewrite string_compare_refl in Hc. discriminate.
Qed.

Lemma store_lookup_put_ne k k' v s :
  k <> k' -> store_lookup k' (store_put k v s) = store_lookup k' s.
Proof.
  intros Hne. induction s as [|kv s IH]; cbn [store_put store_lookup Key Value].
  - destruct (String.eqb_spec k' k); [congruence | reflexivity].
  - destruct (String.compare k (Key kv)) eqn:Hc; cbn [store_lookup Key Value].
    + apply String.compare_eq_iff in Hc. subst k.
      destruct (String.eqb_spec k' (Key kv)); [congruence | reflexivity].
    + destruct (String.eqb_spec k' k); [congruence | reflexivity].
    + destruct (String.eqb_spec k' (Key kv)); [reflexivity | exact IH].
Qed.

(** The transaction of [Init] leaves a GlobalVersion that exists as it is,
    and creates it with the given value otherwise. *)
Lemma store_create_if_absent_lookup k v s :
  store_lookup k (store_create_if_absent k v s) =
  match store_lookup k s with
  | Some old => Some old
  | None => Some v
  end.
Proof.
  unfold store_create_if_absent.
  destruct (store_lookup k s) eqn:H; [exact H | apply store_lookup_put_eq].
Qed.

Lemma self_path_ne_global id :
  selfSchemaVerPath (NewSchemaSyncer id) <> ddlGlobalSchemaVersion.
Proof. cbn. discriminate. Qed.

Section InitProperties.

Variable env : Env.
Hypothesis quiet : global_quiet env.

Lemma putKV_loop_keeps_global n : forall ctx key val e w,
  key <> ddlGlobalSchemaVersion ->
  globalVersion (store (snd (putKV_loop env n ctx key val e w))) =
  globalVersion (store w).
Proof.
  induction n as [|n IH]; intros ctx key val e w Hne; [reflexivity|].
  destruct (ctxLook env ctx (looks w)) as [ce|] eqn:Hl.
  { now rewrite putKV_loop_step_done with (ce := ce). }
  destruct (op_err env (ops w)) as [e'|] eqn:He.
  - rewrite putKV_loop_step_fail by (rewrite ?He; congruence).
    rewrite IH by assumption. cbn [failedAttempt store]. apply quiet.
  - rewrite putKV_loop_step_ok by assumption. cbn [snd store].
    unfold globalVersion. rewrite store_lookup_put_ne by assumption. apply quiet.
Qed.

(** The value of GlobalVersion after one [Init]. *)
Lemma Init_global id ctx w :
  globalVersion (store (snd (Init env (NewSchemaSyncer id) ctx w))) =
  match globalVersion (store w), op_err env (ops w) with
  | Some v, _ => Some v
  | None, None => Some initialVersion
  | None, Some _ => None
  end.
Proof.
  unfold Init, bind, etcdTxnCreate, storeOp.
  destruct (op_err env (ops w)) as [e|] eqn:He.
  - cbn. rewrite quiet. now destruct (globalVersion (store w)).
  - unfold etcdWatch, putKV.
    match goal with
    | |- context [putKV_loop env ?n ?c ?k ?v ?e ?w1] =>
        pose proof (putKV_loop_keeps_global n c k v e w1 (self_path_ne_global id)) as Hk;
        destruct (putKV_loop env n c k v e w1) as [r w2]
    end.
    cbn [snd ret store] in *. rewrite Hk. cbn [store].
    unfold globalVersion at 1. rewrite store_create_if_absent_lookup.
    fold (globalVersion (others env (ops w) (store w))). rewrite quiet.
    now destruct (globalVersion (store w)).
Qed.

(** An [Init] that returns nil has committed its transaction. *)
Lemma Init_nil_committed id ctx w :
  snd (fst (Init env (NewSchemaSyncer id) ctx w)) = None ->
  op_err env (ops w) = None.
Proof.
  unfold Init, bind, etcdTxnCreate, storeOp.
  destruct (op_err env (ops w)) as [e|]; [discriminate | reflexivity].
Qed.

(** C9: the bootstrap of [Init] creates GlobalVersion with the value "0"
    when the key does not exist and the transaction commits, and leaves a
    GlobalVersion that exists as it is.  So after [Init] has run on any
    number of nodes against one store, GlobalVersion has the value it had
    before if it existed; otherwise it has the value "0" or, when no
    transaction has committed, does not exist yet; and it has the value
    "0" as soon as one of the runs has returned nil. *)
Theorem Init_idempotent :
  (forall id ctx w,
     globalVersion (store (snd (Init env (NewSchemaSyncer id) ctx w))) =
     match globalVersion (store w), op_err env (ops w) with
     | Some v, _ => Some v
     | None, None => Some initialVersion
     | None, Some _ => None
     end) /\
  (forall ids ctx w,
     let after := globalVersion (store (snd (InitAll env ids ctx w))) in
     match globalVersion (store w) with
     | Some v => after = Some v
     | None => after = None \/ after = Some initialVersion
     end) /\
  (forall ids ctx w,
     globalVersion (store w) = None ->
     In None (fst (InitAll env ids ctx w)) ->
     globalVersion (store (snd (InitAll env ids ctx w))) = Some initialVersion).
Proof.
  assert (Hall : forall ids ctx w,
     let after := globalVersion (store (snd (InitAll env ids ctx w))) in
     match globalVersion (store w) with
     | Some v => after = Some v
     | None => after = None \/ after = Some initialVersion
     end); [|split; [apply Init_global | split; [exact Hall|]]].
  2:{ intros ids ctx. induction ids as [|id ids IH]; intros w Habs Hin; [destruct Hin|].
      cbn [InitAll] in *. unfold bind in *.
      pose proof (Init_global id ctx w) as H1.
      pose proof (Init_nil_committed id ctx w) as H2.
      destruct (Init env (NewSchemaSyncer id) ctx w) as [r w1]. cbn [fst snd] in H1, H2.
      specialize (IH w1). specialize (Hall ids ctx w1). cbn zeta in Hall.
      destruct (InitAll env ids ctx w1) as [rs w2]. cbn [fst snd ret] in *.
      rewrite Habs in H1.
      destruct (op_err env (ops w)) as [e|].
      - destruct Hin as [Hr|Hin]; [specialize (H2 Hr); discriminate|].
        now apply IH.
      - now rewrite H1 in Hall. }
  intros ids ctx. induction ids as [|id ids IH]; intros w after; subst after.
  - cbn. destruct (globalVersion (store w)); auto.
  - cbn [InitAll]. unfold bind.
    pose proof (Init_global id ctx w) as H1.
    destruct (Init env (NewSchemaSyncer id) ctx w) as [r w1]. cbn [snd] in H1.
    specialize (IH w1). cbn zeta in IH.
    destruct (InitAll env ids ctx w1) as [rs w2]. cbn [snd ret] in *.
    destruct (globalVersion (store w)) as [v|].
    + now rewrite H1 in IH.
    + destruct (op_err env (ops w)); rewrite H1 in IH; auto.
Qed.

End InitProperties.

(** ** Memoized nodes are not read again *)

Lemma same_outside_range um p st st' :
  same_outside um st st' ->
  same_outside um (store_range p st) (store_range p st').
Proof.
  unfold store_range. intros H.
  induction H as [|a b l l' [Hk Hv] _ IH]; cbn [List.filter]; [constructor|].
  rewrite <- Hk. destruct (String.prefix p (Key a)); [|exact IH].
  constructor; [split; assumption | exact IH].
Qed.

Section Memo.

Variable latestVer : Z.
Variables env env' : Env.
Variable ctx : context.
Variable um0 : gset string.
Hypothesis agree : env_agree um0 env env'.

Lemma ctxLook_agree n : ctxLook env ctx n = ctxLook env' ctx n.
Proof. destruct agree as (Hc & _). destruct ctx; cbn; auto. Qed.

(** The two environments give the same result to the loop, from any set
    that contains [um0]. *)
Lemma checkLoop_agree fuel : forall um w w',
  um0 ⊆ um ->
  looks w = looks w' -> ops w = ops w' ->
  same_outside um0 (store w) (store w') ->
  fst (checkLoop env fuel ctx latestVer um w) =
  fst (checkLoop env' fuel ctx latestVer um w').
Proof.
  destruct agree as (_ & Hop & Hoth).
  induction fuel as [|fuel IH]; intros um w w' Hsub Hlk Hops Hst; [reflexivity|].
  assert (Hscan : same_outside um (scanned env w) (scanned env' w')).
  { unfold scanned. apply same_outside_mono with (um := um0); [exact Hsub|].
    apply same_outside_range. rewrite <- Hops. now apply Hoth. }
  assert (Hnext : forall evs evs',
            same_outside um0 (store (addEvents evs (afterScan env ctx w)))
                             (store (addEvents evs' (afterScan env' ctx w')))).
  { intros evs evs'. cbn. rewrite <- Hops. now apply Hoth. }
  pose proof (ctxLook_agree (looks w)) as Hl. rewrite Hlk in Hl at 2.
  pose proof (Hop (ops w)) as He. rewrite Hops in He at 2.
  destruct (ctxLook env ctx (looks w)) as [ce|] eqn:Hl1.
  { rewrite !checkLoop_step_done with (ce := ce) by (assumption || now symmetry).
    reflexivity. }
  destruct (op_err env (ops w)) as [e|] eqn:He1.
  { destruct (isContextFinished (Some e)) eqn:Hf.
    - rewrite !checkLoop_step_fatal with (e := e) by (assumption || now symmetry).
      reflexivity.
    - rewrite !checkLoop_step_retry with (e := e) by (assumption || now symmetry).
      apply IH; cbn; try congruence; auto. apply (Hnext [EvLog] [EvLog]). }
  pose proof (checkRound_same_outside latestVer _ _ um Hscan) as Hround.
  destruct (fst (checkRound latestVer (scanned env w) um)) eqn:Hr.
  - rewrite !checkLoop_step_converged by (rewrite <- ?Hround; assumption || now symmetry).
    reflexivity.
  - rewrite !checkLoop_step_again by (rewrite <- ?Hround; assumption || now symmetry).
    rewrite <- Hround. apply IH; cbn; try congruence.
    + pose proof (checkRound_mono latestVer (scanned env w) um). set_solver.
    + apply (Hnext [EvSleep checkVersInterval; EvLog] [EvSleep checkVersInterval; EvLog]).
Qed.

End Memo.


Lemma same_outside_refl um st : same_outside um st st.
Proof. induction st; constructor; auto. Qed.


Lemma scan_error_handling_witness :
  checkLoop env_scan_canceled 3 (Caller 0) 5 ∅ w0 =
  (Some (Some (Traced Canceled)), afterScan env_scan_canceled (Caller 0) w0) /\
  checkLoop env_scan_deadline 3 (Caller 0) 5 ∅ w0 =
  (Some (Some (Traced (Traced DeadlineExceeded))),
   afterScan env_scan_deadline (Caller 0) w0) /\
  (checkLoop env_hiccup 3 (Caller 0) 5 ∅ w0 =
   checkLoop env_hiccup 2 (Caller 0) 5 ∅
             (addEvents [EvLog] (afterScan env_hiccup (Caller 0) w0)) /\
   slept_in (trace (addEvents [EvLog] (afterScan env_hiccup (Caller 0) w0))) =
   slept_in (trace w0)).
Proof.
  split; [|split].
  - apply (proj1 (scan_error_handling env_scan_canceled (Caller 0) 5 2 ∅ w0
                    eq_refl) Canceled).
    + reflexivity.
    + left. reflexivity.
  - apply (proj1 (scan_error_handling env_scan_deadline (Caller 0) 5 2 ∅ w0
                    eq_refl) (Traced DeadlineExceeded)).
    + reflexivity.
    + right. reflexivity.
  - apply (proj1 (proj2 (scan_error_handling env_hiccup (Caller 0) 5 2 ∅ w0
                           eq_refl)) unavailable).
    + reflexivity.
    + intros [H|H]; discriminate H.
Defined.

(** With the store back after one failed scan the call returns nil. *)
Example OwnerCheckAllVersions_hiccup :
  fst (OwnerCheckAllVersions env_hiccup 3 nodeA (Caller 0) 5 w0) = Some None /\
  slept_in (trace (snd (OwnerCheckAllVersions env_hiccup 3 nodeA (Caller 0) 5 w0))) =
  50 * Millisecond.
Proof. split; vm_compute; reflexivity. Qed.

Lemma malformed_record_keeps_polling_witness :
  checkRound 5 ([] ++ mkKV pathA "abc" :: [mkKV pathB "5"]) ∅ = (false, ∅) /\
  checkLoop env_malformed 3 (Caller 0) 5 ∅ w0 =
  checkLoop env_malformed 2 (Caller 0) 5 ∅
    (addEvents [EvSleep checkVersInterval; EvLog]
               (afterScan env_malformed (Caller 0) w0)).
Proof.
  apply (malformed_record_keeps_polling env_malformed (Caller 0) 5 2 ∅ w0
           [] [mkKV pathB "5"] (mkKV pathA "abc")).
  - reflexivity.
  - reflexivity.
  - reflexivity.
  - reflexivity.
  - cbn. apply not_elem_of_empty.
  - reflexivity.
Defined.

(** A record that is no number: the call polls until the context is
    canceled and returns the error of the context. *)
Example OwnerCheckAllVersions_malformed :
  fst (OwnerCheckAllVersions env_malformed 3 nodeA (Caller 0) 5 w0) =
  Some (Some (Traced Canceled)).
Proof. vm_compute. reflexivity. Qed.

Lemma global_quiet_fail_first k : global_quiet (env_fail_first k).
Proof. intros n st. reflexivity. Defined.

Lemma Init_idempotent_witness :
  globalVersion (store (snd (InitAll (env_fail_first 0) ["node-a"; "node-b"]
                                     (Caller 0) w7))) = Some "7".
Proof.
  apply (proj1 (proj2 (Init_idempotent (env_fail_first 0)
                         (global_quiet_fail_first 0)))
           ["node-a"; "node-b"] (Caller 0) w7).
Defined.

(** Two nodes run [Init] against an empty store: GlobalVersion is "0" and
    each node has its own record with "0". *)
Example Init_two_nodes :
  store (snd (InitAll (env_fail_first 0) ["node-a"; "node-b"] (Caller 0) w0)) =
  [mkKV pathA "0"; mkKV pathB "0"; mkKV ddlGlobalSchemaVersion "0"].
Proof. vm_compute. reflexivity. Qed.

(** * Further properties *)

(** ** The writer, whatever the outside does *)

Lemma puts_in_split tr : puts_in tr = (ok_puts_in tr + failed_puts_in tr)%nat.
Proof.
  induction tr as [|ev tr IH]; [reflexivity|].
  destruct ev as [|c k v [e|]| | | | | |]; cbn [puts_in ok_puts_in failed_puts_in]; lia.
Qed.

Section PutKVBounds.

Variable env : Env.
Variables (ctx : context) (key val : string).

Lemma putKV_loop_bounds n : forall e w,
  let run := putKV_loop env n ctx key val e w in
  (puts_in (trace w) <= puts_in (trace (snd run)) <= puts_in (trace w) + n)%nat /\
  (looks w <= looks (snd run) <= looks w + n)%nat /\
  (failed_puts_in (trace w) <= failed_puts_in (trace (snd run)))%nat /\
  slept_in (trace (snd run)) - slept_in (trace w) =
    (Z.of_nat (failed_puts_in (trace (snd run))) - Z.of_nat (failed_puts_in (trace w)))
    * putKeyRetryInterval.
Proof.
  induction n as [|n IH]; intros e w run; subst run.
  - cbn. repeat split; lia.
  - destruct (ctxLook env ctx (looks w)) as [ce|] eqn:Hl.
    { rewrite putKV_loop_step_done with (ce := ce) by assumption.
      cbn [snd trace looks puts_in failed_puts_in slept_in]. repeat split; lia. }
    destruct (op_err env (ops w)) as [e'|] eqn:He.
    + rewrite putKV_loop_step_fail by (rewrite ?He; congruence).
      specialize (IH (op_err env (ops w)) (failedAttempt env ctx key val w)).
      cbn zeta in IH.
      destruct (putKV_loop env n ctx key val (op_err env (ops w))
                  (failedAttempt env ctx key val w)) as [r w'].
      cbn [snd failedAttempt trace looks puts_in failed_puts_in slept_in] in *.
      rewrite He in IH. cbn [failedAttempt trace looks puts_in failed_puts_in slept_in] in IH.
      destruct IH as ((H1 & H1') & (H2 & H2') & H3 & H4).
      repeat split; lia.
    + rewrite putKV_loop_step_ok by assumption.
      cbn [snd trace looks puts_in failed_puts_in slept_in]. repeat split; lia.
Qed.

(** The result tells whether a put has succeeded; when one has, it was the
    last thing done and the key holds the value. *)
Lemma putKV_loop_result n : forall e w,
  (n = 0%nat -> e <> None) ->
  let run := putKV_loop env n ctx key val e w in
  match fst run with
  | None =>
      ok_puts_in (trace (snd run)) = S (ok_puts_in (trace w)) /\
      store_lookup key (store (snd run)) = Some val /\
      exists c tr, trace (snd run) = EvPut c key val None :: tr
  | Some _ => ok_puts_in (trace (snd run)) = ok_puts_in (trace w)
  end.
Proof.
  induction n as [|n IH]; intros e w Hn run; subst run.
  - destruct e as [e|]; [reflexivity | now destruct Hn].
  - destruct (ctxLook env ctx (looks w)) as [ce|] eqn:Hl.
    { rewrite putKV_loop_step_done with (ce := ce) by assumption. reflexivity. }
    destruct (op_err env (ops w)) as [e'|] eqn:He.
    + rewrite putKV_loop_step_fail by (rewrite ?He; congruence).
      specialize (IH (op_err env (ops w)) (failedAttempt env ctx key val w)
                     ltac:(rewrite He; discriminate)).
      cbn zeta in IH.
      destruct (putKV_loop env n ctx key val (op_err env (ops w))
                  (failedAttempt env ctx key val w)) as [r w'].
      cbn [fst snd failedAttempt trace ok_puts_in] in *.
      rewrite He in IH. cbn [ok_puts_in] in IH. exact IH.
    + rewrite putKV_loop_step_ok by assumption.
      cbn [fst snd trace store ok_puts_in].
      split; [reflexivity|]. split; [apply store_lookup_put_eq | eauto].
Qed.

End PutKVBounds.

Section PutKVExtras.

Variable env : Env.
Variable s : schemaVersionSyncer.
Variables (ctx : context) (key val : string).

Lemma putKV_loop_ok_mono n : forall e w,
  (ok_puts_in (trace w) <=
   ok_puts_in (trace (snd (putKV_loop env n ctx key val e w))))%nat.
Proof.
  induction n as [|n IH]; intros e w; [cbn; lia|].
  destruct (ctxLook env ctx (looks w)) as [ce|] eqn:Hl.
  { rewrite putKV_loop_step_done with (ce := ce) by assumption. cbn. lia. }
  destruct (op_err env (ops w)) as [e'|] eqn:He.
  - rewrite putKV_loop_step_fail by (rewrite ?He; congruence).
    specialize (IH (op_err env (ops w)) (failedAttempt env ctx key val w)).
    cbn [failedAttempt trace ok_puts_in] in IH. rewrite He in IH at 1.
    cbn [ok_puts_in] in IH. exact IH.
  - rewrite putKV_loop_step_ok by assumption. cbn. lia.
Qed.

(** X1: whatever the store and the context do, [putKV] makes at most
    [retryCnt] puts and looks at the context at most [retryCnt] times; it
    sleeps the retry interval once for every put that failed and at no
    other time, hence for at most [retryCnt] intervals in all. *)
Theorem putKV_effort (retryCnt : Z) (w : World) :
  let run := putKV env s ctx retryCnt key val w in
  let failed := (Z.of_nat (failed_puts_in (trace (snd run)))
                 - Z.of_nat (failed_puts_in (trace w))) in
  (puts_in (trace (snd run)) <= puts_in (trace w) + Z.to_nat retryCnt)%nat /\
  (looks (snd run) <= looks w + Z.to_nat retryCnt)%nat /\
  slept_in (trace (snd run)) - slept_in (trace w) = failed * putKeyRetryInterval /\
  0 <= failed <= Z.max 0 retryCnt.
Proof.
  intros run failed. subst run failed. unfold putKV.
  pose proof (putKV_loop_bounds env ctx key val (Z.to_nat retryCnt) None w) as Hb.
  pose proof (putKV_loop_ok_mono (Z.to_nat retryCnt) None w) as Hok.
  cbn zeta in Hb.
  destruct (putKV_loop env (Z.to_nat retryCnt) ctx key val None w) as [r w'].
  cbn [snd] in *.
  destruct Hb as ((H1 & H1') & (H2 & H2') & H3 & H4).
  pose proof (puts_in_split (trace w)) as Hs.
  pose proof (puts_in_split (trace w')) as Hs'.
  repeat split; try assumption; lia.
Qed.

(** X2: with a budget of at least one attempt, [putKV] returns nil exactly
    when one of its puts has succeeded.  That put is then the last thing
    it has done, no other put of the call has succeeded, and the key holds
    the value when the call returns.  When it returns an error, none of
    its puts has succeeded. *)
Theorem putKV_nil_iff_written (retryCnt : Z) (w : World) :
  1 <= retryCnt ->
  let run := putKV env s ctx retryCnt key val w in
  match fst run with
  | None =>
      ok_puts_in (trace (snd run)) = S (ok_puts_in (trace w)) /\
      store_lookup key (store (snd run)) = Some val /\
      exists c tr, trace (snd run) = EvPut c key val None :: tr
  | Some _ => ok_puts_in (trace (snd run)) = ok_puts_in (trace w)
  end.
Proof.
  intros H run. subst run. unfold putKV.
  apply putKV_loop_result. lia.
Qed.

End PutKVExtras.

Lemma putKV_nil_iff_written_witness :
  ok_puts_in (trace (snd (putKV (env_fail_first 2) nodeA (Caller 0) 3 pathA "9" w0))) = 1%nat /\
  store_lookup pathA (store (snd (putKV (env_fail_first 2) nodeA (Caller 0) 3 pathA "9" w0)))
  = Some "9".
Proof.
  pose proof (putKV_nil_iff_written (env_fail_first 2) nodeA (Caller 0) pathA "9" 3 w0
                ltac:(lia)) as H.
  cbn zeta in H.
  change (fst (putKV (env_fail_first 2) nodeA (Caller 0) 3 pathA "9" w0))
    with (@None error) in H.
  destruct H as (H1 & H2 & _). split; [exact H1 | exact H2].
Defined.

(** ** Publishing the global version *)

Section OwnerUpdate.

Variable env : Env.
Variable s : schemaVersionSyncer.
Variable ctx : context.

Lemma OwnerUpdateGlobalVersion_unfold (version : Z) (w : World) :
  OwnerUpdateGlobalVersion env s ctx version w =
  putKV env s ctx putKeyRetryUnlimited ddlGlobalSchemaVersion (FormatInt version) w.
Proof. reflexivity. Qed.

(** The writer after [k] failed puts, with budget left. *)
Lemma putKV_after_failures (retryCnt : Z) (key val : string) (k : nat) (w : World) :
  (k < Z.to_nat retryCnt)%nat ->
  (forall j, (j < k)%nat ->
     ctxLook env ctx (looks w + j) = None /\ op_err env (ops w + j) <> None) ->
  let run := putKV env s ctx retryCnt key val w in
  (ctxLook env ctx (looks w + k) = None ->
   op_err env (ops w + k) = None ->
   fst run = None /\
   puts_in (trace (snd run)) = (puts_in (trace w) + k + 1)%nat /\
   store_lookup key (store (snd run)) = Some val) /\
  (forall ce, ctxLook env ctx (looks w + k) = Some ce ->
   fst run = Some (Traced ce) /\
   puts_in (trace (snd run)) = (puts_in (trace w) + k)%nat).
Proof.
  intros HkN Hfail run. subst run. unfold putKV.
  remember (Z.to_nat retryCnt) as N eqn:HN. clear HN.
  replace N with (k + S (N - S k))%nat by lia.
  rewrite putKV_loop_skip by assumption.
  destruct (failedAttempts_counts env ctx key val k w) as (Ho & Hl & Hp & _).
  split.
  - intros Hopen Hok.
    rewrite putKV_loop_step_ok by (rewrite ?Hl, ?Ho; assumption).
    cbn [fst snd trace store puts_in]. rewrite Hp.
    split; [reflexivity|]. split; [lia|]. apply store_lookup_put_eq.
  - intros ce Hdone.
    rewrite putKV_loop_step_done with (ce := ce) by (rewrite Hl; assumption).
    cbn [fst snd trace puts_in]. rewrite Hp. split; reflexivity.
Qed.

(** The unlimited writer after [k] failed puts. *)
Lemma OwnerUpdate_after_failures (version : Z) (k : nat) (w : World) :
  Z.of_nat k < putKeyRetryUnlimited ->
  (forall j, (j < k)%nat ->
     ctxLook env ctx (looks w + j) = None /\ op_err env (ops w + j) <> None) ->
  let run := OwnerUpdateGlobalVersion env s ctx version w in
  (ctxLook env ctx (looks w + k) = None ->
   op_err env (ops w + k) = None ->
   fst run = None /\
   puts_in (trace (snd run)) = (puts_in (trace w) + k + 1)%nat /\
   globalVersion (store (snd run)) = Some (FormatInt version)) /\
  (forall ce, ctxLook env ctx (looks w + k) = Some ce ->
   fst run = Some (Traced ce) /\
   puts_in (trace (snd run)) = (puts_in (trace w) + k)%nat).
Proof.
  intros Hk Hfail run. subst run. rewrite OwnerUpdateGlobalVersion_unfold.
  apply (putKV_after_failures putKeyRetryUnlimited ddlGlobalSchemaVersion
           (FormatInt version) k w); [|exact Hfail].
  unfold putKeyRetryUnlimited in *. lia.
Qed.

(** X3: [OwnerUpdateGlobalVersion] does not give up on a store that
    fails.  After any number [k] of failed puts (below the budget of
    2^63-1) it is still trying: if the next put succeeds it returns nil
    after [k+1] puts and GlobalVersion holds the decimal text of the
    version, whatever it held before; if the context is found done at the
    next attempt it returns the error of the context, traced, after [k]
    puts. *)
Theorem OwnerUpdateGlobalVersion_persists (version : Z) (k : nat) (w : World) :
  Z.of_nat k < putKeyRetryUnlimited ->
  (forall j, (j < k)%nat ->
     ctxLook env ctx (looks w + j) = None /\ op_err env (ops w + j) <> None) ->
  let run := OwnerUpdateGlobalVersion env s ctx version w in
  (ctxLook env ctx (looks w + k) = None ->
   op_err env (ops w + k) = None ->
   fst run = None /\
   puts_in (trace (snd run)) = (puts_in (trace w) + k + 1)%nat /\
   globalVersion (store (snd run)) = Some (FormatInt version)) /\
  (forall ce, ctxLook env ctx (looks w + k) = Some ce ->
   fst run = Some (Traced ce) /\
   puts_in (trace (snd run)) = (puts_in (trace w) + k)%nat).
Proof.
  intros Hk Hfail run. subst run. rewrite OwnerUpdateGlobalVersion_unfold.
  apply (putKV_after_failures putKeyRetryUnlimited ddlGlobalSchemaVersion
           (FormatInt version) k w); [|exact Hfail].
  unfold putKeyRetryUnlimited in *. lia.
Qed.

End OwnerUpdate.

Lemma OwnerUpdateGlobalVersion_persists_witness :
  let run := OwnerUpdateGlobalVersion env_outage nodeA (Caller 0) 8 w7 in
  fst run = None /\
  puts_in (trace (snd run)) = 4%nat /\
  globalVersion (store (snd run)) = Some (FormatInt 8).
Proof.
  apply (OwnerUpdateGlobalVersion_persists env_outage nodeA (Caller 0) 8 3 w7).
  - unfold putKeyRetryUnlimited. lia.
  - intros j Hj. destruct j as [|[|[|j]]];
      [split; [reflexivity | discriminate] ..| lia].
  - reflexivity.
  - reflexivity.
Defined.

(** ** Paths and scans *)

Lemma store_lookup_In k v s : store_lookup k s = Some v -> In (mkKV k v) s.
Proof.
  induction s as [|kv s IH]; cbn [store_lookup]; [discriminate|].
  destruct (String.eqb_spec k (Key kv)) as [->|Hne].
  - intros [= <-]. left. now destruct kv.
  - intros H. right. now apply IH.
Qed.

Lemma store_range_In p kv s :
  In kv (store_range p s) <-> In kv s /\ String.prefix p (Key kv) = true.
Proof. unfold store_range. apply filter_In. Qed.

(** X4: the self path that [NewSchemaSyncer] gives a node lies under the
    prefix that [OwnerCheckAllVersions] scans, differs from the path of any
    other node identifier, and is never the key of GlobalVersion; and the
    key of GlobalVersion does not lie under the scanned prefix, so no scan
    returns it as a self-version record. *)
Theorem NewSchemaSyncer_paths :
  (forall id, String.prefix ddlAllSchemaVersions
                (selfSchemaVerPath (NewSchemaSyncer id)) = true) /\
  (forall id id',
     selfSchemaVerPath (NewSchemaSyncer id) = selfSchemaVerPath (NewSchemaSyncer id') ->
     id = id') /\
  (forall id, selfSchemaVerPath (NewSchemaSyncer id) <> ddlGlobalSchemaVersion) /\
  (forall st kv, In kv (store_range ddlAllSchemaVersions st) ->
     Key kv <> ddlGlobalSchemaVersion).
Proof.
  split; [|split; [|split]].
  - intros id. cbn. reflexivity.
  - intros id id' H. cbn in H. now injection H.
  - intros id. cbn. discriminate.
  - intros st kv Hin Hk. apply store_range_In in Hin as [_ Hp].
    rewrite Hk in Hp. cbn in Hp. discriminate.
Qed.

Lemma NewSchemaSyncer_paths_witness :
  Key (mkKV pathA "0") <> ddlGlobalSchemaVersion.
Proof.
  apply (proj2 (proj2 (proj2 NewSchemaSyncer_paths))
           [mkKV pathA "0"; mkKV ddlGlobalSchemaVersion "3"]).
  cbn. left. reflexivity.
Defined.

(** ** Initialisation *)

Section InitExtras.

Variable env : Env.

(** X5: [Init] keeps the self path of the syncer.  When its transaction
    fails it returns that error, traced, and does nothing else: the syncer
    is unchanged (no watch channel) and no put is made.  When the
    transaction commits, the syncer holds the watch channel on GlobalVersion
    under the caller's context, also when the write of the self record
    fails afterwards; at most three puts are made; and when [Init] returns
    nil the self record of the node holds "0" and a scan of the store
    finds it. *)
Theorem Init_outcome (s : schemaVersionSyncer) (ctx : context) (w : World) :
  let run := Init env s ctx w in
  let s' := fst (fst run) in
  let r := snd (fst run) in
  selfSchemaVerPath s' = selfSchemaVerPath s /\
  match op_err env (ops w) with
  | Some e =>
      r = Some (Traced e) /\ s' = s /\
      trace (snd run) =
        EvTxn ctx ddlGlobalSchemaVersion initialVersion (Some e) :: trace w
  | None =>
      GlobalVersionCh s' = Some (mkWatchChan ctx ddlGlobalSchemaVersion) /\
      (puts_in (trace (snd run)) <= puts_in (trace w) + 3)%nat /\
      (r = None ->
       store_lookup (selfSchemaVerPath s) (store (snd run)) = Some initialVersion /\
       (String.prefix ddlAllSchemaVersions (selfSchemaVerPath s) = true ->
        In (mkKV (selfSchemaVerPath s) initialVersion)
           (store_range ddlAllSchemaVersions (store (snd run)))))
  end.
Proof.
  intros run s' r. subst run s' r.
  unfold Init, bind, etcdTxnCreate, storeOp.
  destruct (op_err env (ops w)) as [e|] eqn:He.
  - cbn. repeat split; reflexivity.
  - unfold etcdWatch, putKV. change (Z.to_nat keyOpDefaultRetryCnt) with 3%nat.
    cbn [selfSchemaVerPath].
    match goal with
    | |- context [putKV_loop env 3 ctx ?k ?v None ?w1] =>
        pose proof (putKV_loop_bounds env ctx k v 3 None w1) as Hb;
        pose proof (putKV_loop_result env ctx k v 3 None w1 ltac:(discriminate)) as Hr;
        cbn zeta in Hb, Hr;
        destruct (putKV_loop env 3 ctx k v None w1) as [r w2]
    end.
    cbn [fst snd ret selfSchemaVerPath GlobalVersionCh globalVerCh trace puts_in] in *.
    destruct Hb as ((_ & Hb) & _).
    split; [reflexivity|]. split; [reflexivity|]. split; [exact Hb|].
    intros ->. destruct Hr as (_ & Hlk & _). split; [exact Hlk|].
    intros Hp. apply store_range_In. split; [now apply store_lookup_In | exact Hp].
Qed.

End InitExtras.

Lemma Init_outcome_witness :
  store_lookup pathA (store (snd (Init (env_fail_first 0) nodeA (Caller 0) w0)))
  = Some initialVersion.
Proof.
  pose proof (Init_outcome (env_fail_first 0) nodeA (Caller 0) w0) as H.
  cbn zeta in H. destruct H as (_ & H).
  change (op_err (env_fail_first 0) (ops w0)) with (@None error) in H.
  destruct H as (_ & _ & H).
  exact (proj1 (H eq_refl)).
Defined.

(** ** Writing and reading a version *)

Ltac eval_digit :=
  match goal with
  | |- context [digit_of ?c] =>
      let v := eval vm_compute in (digit_of c) in
      change (digit_of c) with v
  end.

Lemma parse_digits_acc d : forall p : positive,
  parse_digits (NilEmpty.string_of_uint d) (Zpos p) = Some (Zpos (Pos.of_uint_acc d p)).
Proof.
  induction d as [|d IHd|d IHd|d IHd|d IHd|d IHd|d IHd|d IHd|d IHd|d IHd|d IHd];
    intros p; cbn [NilEmpty.string_of_uint parse_digits Pos.of_uint_acc];
    try reflexivity; eval_digit; cbv iota; rewrite <- IHd; f_equal; lia.
Qed.

Lemma parse_digits_uint d :
  parse_digits (NilEmpty.string_of_uint d) 0 = Some (Z.of_N (Pos.of_uint d)).
Proof.
  induction d as [|d IHd|d IHd|d IHd|d IHd|d IHd|d IHd|d IHd|d IHd|d IHd|d IHd];
    cbn [NilEmpty.string_of_uint parse_digits Pos.of_uint];
    try reflexivity; eval_digit; cbv iota;
    [exact IHd | cbn [Z.of_N]; rewrite <- parse_digits_acc; f_equal ..].
Qed.

(** What [FormatInt] writes, [Atoi] reads back. *)
Lemma Atoi_FormatInt v : minInt64 <= v <= maxInt64 -> Atoi (FormatInt v) = Some v.
Proof.
  intros Hv. unfold FormatInt.
  destruct v as [|p|p]; [reflexivity | |].
  - cbn [Z.to_int NilZero.string_of_int].
    pose proof (DecimalPos.Unsigned.of_to p) as Hp.
    pose proof (parse_digits_uint (Pos.to_uint p)) as Hd. rewrite Hp in Hd.
    destruct (Pos.to_uint p) as [|d|d|d|d|d|d|d|d|d|d] eqn:Hu; [discriminate Hp|..];
      cbn [NilZero.string_of_uint NilEmpty.string_of_uint] in *;
      unfold Atoi, parse_uint; cbv iota; rewrite Hd; cbn [Z.of_N];
      destruct Hv as [Ha Hb]; apply Z.leb_le in Ha, Hb; rewrite Ha, Hb; reflexivity.
  - cbn [Z.to_int NilZero.string_of_int].
    pose proof (DecimalPos.Unsigned.of_to p) as Hp.
    pose proof (parse_digits_uint (Pos.to_uint p)) as Hd. rewrite Hp in Hd.
    unfold Atoi. cbv iota.
    assert (Hpu : parse_uint (NilZero.string_of_uint (Pos.to_uint p)) = Some (Z.pos p)).
    { destruct (Pos.to_uint p) as [|d|d|d|d|d|d|d|d|d|d] eqn:Hu; [discriminate Hp|..];
        cbn [NilZero.string_of_uint NilEmpty.string_of_uint] in *; exact Hd. }
    rewrite Hpu. cbn [option_map]. change (- Z.pos p) with (Z.neg p).
    destruct Hv as [Ha Hb]. apply Z.leb_le in Ha, Hb. rewrite Ha, Hb. reflexivity.
Qed.

(** X6: the record that [UpdateSelfVersion] writes is one that the round
    of [OwnerCheckAllVersions] accepts.  For a version in the range of
    int64, a call that returns nil leaves the decimal text of the version
    under the self path, [Atoi] reads that text back as the version, and a
    round over that record for the same version succeeds. *)
Theorem UpdateSelfVersion_read_back (env : Env) (s : schemaVersionSyncer)
    (ctx : context) (version : Z) (w : World) :
  minInt64 <= version <= maxInt64 ->
  fst (UpdateSelfVersion env s ctx version w) = None ->
  let w' := snd (UpdateSelfVersion env s ctx version w) in
  store_lookup (selfSchemaVerPath s) (store w') = Some (FormatInt version) /\
  Atoi (FormatInt version) = Some version /\
  forall um,
    fst (checkRound version [mkKV (selfSchemaVerPath s) (FormatInt version)] um) = true.
Proof.
  intros Hv Hnil w'. subst w'.
  pose proof (putKV_loop_result env ctx (selfSchemaVerPath s) (FormatInt version)
                1%nat None w ltac:(discriminate)) as H.
  cbn zeta in H. unfold UpdateSelfVersion, putKV in *. cbn zeta in *.
  change (Z.to_nat putKeyNoRetry) with 1%nat in *.
  rewrite Hnil in H. destruct H as (_ & Hlk & _).
  split; [exact Hlk|]. split; [now apply Atoi_FormatInt|].
  intros um. cbn [checkRound Key Value].
  destruct (decide (selfSchemaVerPath s ∈ um)); [reflexivity|].
  rewrite Atoi_FormatInt by assumption. now rewrite Z.eqb_refl.
Qed.

Lemma UpdateSelfVersion_read_back_witness :
  store_lookup pathA (store (snd (UpdateSelfVersion (env_fail_first 0) nodeA (Caller 0)
                                     (-42) w0)))
  = Some (FormatInt (-42)) /\
  Atoi (FormatInt (-42)) = Some (-42).
Proof.
  destruct (UpdateSelfVersion_read_back (env_fail_first 0) nodeA (Caller 0) (-42) w0)
    as (H1 & H2 & _).
  - unfold minInt64, maxInt64. lia.
  - reflexivity.
  - split; [exact H1 | exact H2].
Defined.

(** ** Removing the self record *)

Lemma store_lookup_delete_eq k s : store_lookup k (store_delete k s) = None.
Proof.
  induction s as [|kv s IH]; [reflexivity|]. cbn [store_delete].
  destruct (String.eqb_spec k (Key kv)) as [->|Hne]; [exact IH|].
  cbn [store_lookup]. destruct (String.eqb_spec k (Key kv)); [contradiction | exact IH].
Qed.

Lemma store_lookup_delete_ne k k' s :
  k <> k' -> store_lookup k' (store_delete k s) = store_lookup k' s.
Proof.
  intros Hne. induction s as [|kv s IH]; [reflexivity|]. cbn [store_delete store_lookup].
  destruct (String.eqb_spec k (Key kv)) as [->|Hk].
  - destruct (String.eqb_spec k' (Key kv)); [congruence | exact IH].
  - cbn [store_lookup]. destruct (String.eqb_spec k' (Key kv)); [reflexivity | exact IH].
Qed.

Section RemoveExtras.

Variable env : Env.

Lemma removeSelf_loop_result n : forall ctx key e w,
  (n = 0%nat -> e <> None) ->
  let run := removeSelf_loop env n ctx key e w in
  match fst run with
  | None => store_lookup key (store (snd run)) = None
  | Some _ => deletes_in (trace (snd run)) = (deletes_in (trace w) + n)%nat
  end.
Proof.
  induction n as [|n IH]; intros ctx key e w Hn run; subst run.
  - destruct e as [e|]; [cbn; lia | now destruct Hn].
  - rewrite removeSelf_loop_step. cbn zeta.
    destruct (op_err env (ops w)) as [e'|] eqn:He.
    + match goal with
      | |- context [removeSelf_loop env n ctx key ?e1 ?w1] =>
          specialize (IH ctx key e1 w1 ltac:(discriminate)); cbn zeta in IH;
          destruct (removeSelf_loop env n ctx key e1 w1) as [r w2]
      end.
      cbn [fst snd trace deletes_in] in *.
      destruct r; [lia | exact IH].
    + cbn [fst snd store]. apply store_lookup_delete_eq.
Qed.

Lemma removeSelf_loop_others n : forall ctx key e w k,
  alone env -> k <> key ->
  store_lookup k (store (snd (removeSelf_loop env n ctx key e w))) =
  store_lookup k (store w).
Proof.
  induction n as [|n IH]; intros ctx key e w k Hal Hne; [reflexivity|].
  rewrite removeSelf_loop_step. cbn zeta.
  destruct (op_err env (ops w)) as [e'|] eqn:He.
  - rewrite IH by assumption. cbn [store]. now rewrite Hal.
  - cbn [snd store]. rewrite store_lookup_delete_ne by congruence. now rewrite Hal.
Qed.

(** X7: when [RemoveSelfVersionPath] returns nil, the self record of the
    node is gone from the store and no scan of that store returns it; when
    it returns an error, it has made all three delete attempts.  When
    nobody else writes, every other key keeps its value either way. *)
Theorem RemoveSelfVersionPath_removed (s : schemaVersionSyncer) (w : World) :
  let run := RemoveSelfVersionPath env s w in
  match fst run with
  | None =>
      store_lookup (selfSchemaVerPath s) (store (snd run)) = None /\
      forall v, ~ In (mkKV (selfSchemaVerPath s) v)
                     (store_range ddlAllSchemaVersions (store (snd run)))
  | Some _ => deletes_in (trace (snd run)) = (deletes_in (trace w) + 3)%nat
  end /\
  (alone env ->
   forall k, k <> selfSchemaVerPath s ->
     store_lookup k (store (snd run)) = store_lookup k (store w)).
Proof.
  intros run. subst run. unfold RemoveSelfVersionPath.
  change (Z.to_nat keyOpDefaultRetryCnt) with 3%nat. cbn zeta. split.
  - pose proof (removeSelf_loop_result 3 Background (selfSchemaVerPath s) None w
                  ltac:(discriminate)) as H.
    cbn zeta in H.
    destruct (removeSelf_loop env 3 Background (selfSchemaVerPath s) None w) as [r w'].
    cbn [fst snd] in *. destruct r; [exact H|]. split; [exact H|].
    intros v Hin. apply store_range_In in Hin as [Hin _].
    assert (Hsome : store_lookup (selfSchemaVerPath s) (store w') <> None).
    { clear H. induction (store w') as [|kv st IH]; [destruct Hin|].
      cbn [store_lookup]. destruct (String.eqb_spec (selfSchemaVerPath s) (Key kv)); [discriminate|].
      destruct Hin as [-> | Hin]; [now cbn in *|]. now apply IH. }
    contradiction.
  - intros Hal k Hk. now apply removeSelf_loop_others.
Qed.

End RemoveExtras.

Lemma alone_fail_first k : alone (env_fail_first k).
Proof. intros n st. reflexivity. Defined.

Lemma RemoveSelfVersionPath_removed_witness :
  store_lookup ddlGlobalSchemaVersion
    (store (snd (RemoveSelfVersionPath (env_fail_first 1) nodeA w7)))
  = store_lookup ddlGlobalSchemaVersion (store w7).
Proof.
  apply (proj2 (RemoveSelfVersionPath_removed (env_fail_first 1) nodeA w7)
           (alone_fail_first 1)).
  discriminate.
Defined.

(** ** More on the convergence check *)

Lemma isContextFinished_Traced e :
  isContextFinished (Some (Traced e)) = isContextFinished (Some e).
Proof. reflexivity. Qed.

Section CheckExtras.

Variable env : Env.
Variable ctx : context.
Variable latestVer : Z.

Lemma checkLoop_read_only fuel : forall um w,
  let run := checkLoop env fuel ctx latestVer um w in
  writes_in (trace (snd run)) = writes_in (trace w) /\
  (alone env -> store (snd run) = store w).
Proof.
  induction fuel as [|fuel IH]; intros um w run; subst run; [split; reflexivity|].
  destruct (ctxLook env ctx (looks w)) as [ce|] eqn:Hl.
  { rewrite checkLoop_step_done with (ce := ce) by assumption. split; reflexivity. }
  assert (Hst : alone env -> others env (ops w) (store w) = store w) by (intros H; apply H).
  destruct (op_err env (ops w)) as [e|] eqn:He.
  { destruct (isContextFinished (Some e)) eqn:Hf.
    - rewrite checkLoop_step_fatal with (e := e) by assumption. split; [reflexivity|exact Hst].
    - rewrite checkLoop_step_retry with (e := e) by assumption.
      destruct (IH um (addEvents [EvLog] (afterScan env ctx w))) as [H1 H2].
      rewrite H1. split; [reflexivity|]. intros Hal. rewrite (H2 Hal). now apply Hst. }
  destruct (fst (checkRound latestVer (scanned env w) um)) eqn:Hr.
  - rewrite checkLoop_step_converged by assumption. split; [reflexivity|exact Hst].
  - rewrite checkLoop_step_again by assumption.
    match goal with
    | |- context [checkLoop env fuel ctx latestVer ?um1 ?w1] =>
        destruct (IH um1 w1) as [H1 H2]
    end.
    rewrite H1. split; [reflexivity|]. intros Hal. rewrite (H2 Hal). now apply Hst.
Qed.

(** The time slept by the loop: one polling interval for every scan that
    succeeded, but for the one on which the loop returned nil. *)
Lemma checkLoop_slept fuel : forall um w,
  let run := checkLoop env fuel ctx latestVer um w in
  (length (scans_in (trace w)) <= length (scans_in (trace (snd run))))%nat /\
  slept_in (trace (snd run)) - slept_in (trace w) =
    (Z.of_nat (length (scans_in (trace (snd run))))
     - Z.of_nat (length (scans_in (trace w)))
     - match fst run with Some None => 1 | _ => 0 end) * checkVersInterval.
Proof.
  induction fuel as [|fuel IH]; intros um w run; subst run; [cbn; split; lia|].
  destruct (ctxLook env ctx (looks w)) as [ce|] eqn:Hl.
  { rewrite checkLoop_step_done with (ce := ce) by assumption. cbn. split; lia. }
  destruct (op_err env (ops w)) as [e|] eqn:He.
  { destruct (isContextFinished (Some e)) eqn:Hf.
    - rewrite checkLoop_step_fatal with (e := e) by assumption.
      unfold afterScan. rewrite He. cbn. split; lia.
    - rewrite checkLoop_step_retry with (e := e) by assumption.
      destruct (IH um (addEvents [EvLog] (afterScan env ctx w))) as [H1 H2].
      unfold afterScan, addEvents in H1, H2. rewrite He in H1, H2. cbn in H1, H2.
      unfold afterScan, addEvents. rewrite He. cbn. split; [exact H1 | exact H2]. }
  destruct (fst (checkRound latestVer (scanned env w) um)) eqn:Hr.
  - rewrite checkLoop_step_converged by assumption.
    unfold afterScan. rewrite He. cbn [fst snd trace scans_in slept_in length].
    unfold checkVersInterval, Millisecond. split; lia.
  - rewrite checkLoop_step_again by assumption.
    match goal with
    | |- context [checkLoop env fuel ctx latestVer ?um1 ?w1] =>
        destruct (IH um1 w1) as [H1 H2];
        destruct (checkLoop env fuel ctx latestVer um1 w1) as [r w']
    end.
    unfold afterScan, addEvents in H1, H2. rewrite He in H1, H2.
    cbn [fst snd trace scans_in slept_in length app] in *.
    unfold checkVersInterval, Millisecond in *. split; lia.
Qed.

Lemma checkLoop_errors fuel : forall um w te,
  context_errors env ctx ->
  fst (checkLoop env fuel ctx latestVer um w) = Some (Some te) ->
  isContextFinished (Some te) = true.
Proof.
  induction fuel as [|fuel IH]; intros um w te Hce Hrun; [discriminate|].
  destruct (ctxLook env ctx (looks w)) as [ce|] eqn:Hl.
  { rewrite checkLoop_step_done with (ce := ce) in Hrun by assumption.
    injection Hrun as <-. rewrite isContextFinished_Traced.
    destruct (Hce _ _ Hl) as [-> | ->]; reflexivity. }
  destruct (op_err env (ops w)) as [e|] eqn:He.
  { destruct (isContextFinished (Some e)) eqn:Hf.
    - rewrite checkLoop_step_fatal with (e := e) in Hrun by assumption.
      injection Hrun as <-. now rewrite isContextFinished_Traced.
    - rewrite checkLoop_step_retry with (e := e) in Hrun by assumption.
      now apply IH in Hrun. }
  destruct (fst (checkRound latestVer (scanned env w) um)) eqn:Hr.
  - rewrite checkLoop_step_converged in Hrun by assumption. discriminate.
  - rewrite checkLoop_step_again in Hrun by assumption. now apply IH in Hrun.
Qed.

Lemma checkRound_all_pass kvs : forall um,
  Forall (passes latestVer um) kvs -> fst (checkRound latestVer kvs um) = true.
Proof.
  induction kvs as [|kv kvs IH]; intros um H; [reflexivity|].
  apply Forall_cons_1 in H as [Hkv Hrest]. cbn [checkRound].
  destruct (decide (Key kv ∈ um)) as [Hin|Hout]; [now apply IH|].
  destruct Hkv as [Hin|Hh]; [contradiction|]. unfold holds in Hh. rewrite Hh.
  rewrite Z.eqb_refl. cbn [negb]. apply IH.
  eapply Forall_impl; [exact Hrest|].
  intros x [Hx|Hx]; [left; set_solver | now right].
Qed.

End CheckExtras.

Section CheckAllExtras.

Variable env : Env.
Variable s : schemaVersionSyncer.
Variable ctx : context.
Variable latestVer : Z.

(** X8: [OwnerCheckAllVersions] only reads.  Whatever fuel it is given
    and however it ends, it has sent no put, no delete and no transaction
    to the store; and when nobody else writes, the store is the same after
    the call as before. *)
Theorem OwnerCheckAllVersions_read_only (fuel : nat) (w : World) :
  let run := OwnerCheckAllVersions env fuel s ctx latestVer w in
  writes_in (trace (snd run)) = writes_in (trace w) /\
  (alone env -> store (snd run) = store w).
Proof.
  intros run. subst run. unfold OwnerCheckAllVersions, bind. cbn [timeSleep emit].
  match goal with
  | |- context [checkLoop env fuel ctx latestVer ∅ ?w1] =>
      destruct (checkLoop_read_only env ctx latestVer fuel ∅ w1) as [H1 H2]
  end.
  split; [exact H1 | exact H2].
Qed.

(** X9: the time a call sleeps, however it ends: the first wait, and one
    polling interval for every scan that succeeded, but for the scan on
    which it returned nil.  A scan that fails adds no sleep. *)
Theorem OwnerCheckAllVersions_slept (fuel : nat) (w : World) :
  let run := OwnerCheckAllVersions env fuel s ctx latestVer w in
  let scans := (Z.of_nat (length (scans_in (trace (snd run))))
                - Z.of_nat (length (scans_in (trace w)))) in
  0 <= scans /\
  slept_in (trace (snd run)) - slept_in (trace w) =
    checkVersFirstWaitTime w
    + (scans - match fst run with Some None => 1 | _ => 0 end) * checkVersInterval.
Proof.
  intros run scans. subst run scans.
  unfold OwnerCheckAllVersions, bind. cbn [timeSleep emit].
  match goal with
  | |- context [checkLoop env fuel ctx latestVer ∅ ?w1] =>
      destruct (checkLoop_slept env ctx latestVer fuel ∅ w1) as [H1 H2];
      destruct (checkLoop env fuel ctx latestVer ∅ w1) as [r w']
  end.
  cbn [fst snd trace scans_in slept_in] in *.
  unfold checkVersInterval, Millisecond in *. split; lia.
Qed.

(** X10: the only errors that [OwnerCheckAllVersions] returns are errors
    of a context.  When what a look at the context finds is [Canceled] or
    [DeadlineExceeded], every error that the call returns satisfies
    [isContextFinished]: an error of the store never comes back. *)
Theorem OwnerCheckAllVersions_only_context_errors (fuel : nat) (w : World) (te : error) :
  context_errors env ctx ->
  fst (OwnerCheckAllVersions env fuel s ctx latestVer w) = Some (Some te) ->
  isContextFinished (Some te) = true.
Proof.
  intros Hce Hrun. unfold OwnerCheckAllVersions, bind in Hrun.
  cbn [timeSleep emit] in Hrun. now apply checkLoop_errors in Hrun.
Qed.

(** X11: a context that is done when the call is made is found done only
    after the first wait: the call sleeps [checkVersFirstWaitTime], looks
    at the context, and returns its error, traced, without any scan. *)
Theorem OwnerCheckAllVersions_done_at_call (fuel : nat) (w : World) (ce : error) :
  ctxLook env ctx (looks w) = Some ce ->
  let run := OwnerCheckAllVersions env (S fuel) s ctx latestVer w in
  fst run = Some (Some (Traced ce)) /\
  trace (snd run) =
    EvDone ctx (Some ce) :: EvSleep (checkVersFirstWaitTime w) :: trace w /\
  ops (snd run) = ops w.
Proof.
  intros Hl run. subst run. unfold OwnerCheckAllVersions, bind.
  cbn [timeSleep emit].
  rewrite checkLoop_step_done with (ce := ce) by exact Hl.
  repeat split.
Qed.

(** X12: when the context is open and the first scan succeeds with every
    record reading as the version (in particular when there is no record
    at all), the call returns nil after that one scan, having slept the
    first wait and nothing more. *)
Theorem OwnerCheckAllVersions_first_scan (fuel : nat) (w : World) :
  ctxLook env ctx (looks w) = None ->
  op_err env (ops w) = None ->
  Forall (holds latestVer) (scanned env w) ->
  let run := OwnerCheckAllVersions env (S fuel) s ctx latestVer w in
  fst run = Some None /\
  ops (snd run) = S (ops w) /\
  slept_in (trace (snd run)) = slept_in (trace w) + checkVersFirstWaitTime w.
Proof.
  intros Hl He Hall run. subst run. unfold OwnerCheckAllVersions, bind.
  cbn [timeSleep emit].
  rewrite checkLoop_step_converged.
  - cbn. repeat split. lia.
  - exact Hl.
  - exact He.
  - apply checkRound_all_pass. eapply Forall_impl; [exact Hall|]. intros x Hx. now right.
Qed.

End CheckAllExtras.

Lemma OwnerCheckAllVersions_read_only_witness :
  store (snd (OwnerCheckAllVersions (env_fail_first 1) 4 nodeA (Caller 0) 6 w55)) = store w55.
Proof.
  apply (proj2 (OwnerCheckAllVersions_read_only (env_fail_first 1) nodeA (Caller 0) 6 4 w55)).
  exact (alone_fail_first 1).
Defined.

Lemma context_errors_canceled_at k c : context_errors (env_canceled_at k) c.
Proof.
  intros n e. destruct c; unfold ctxLook, env_canceled_at; cbn [ctx_err];
    [discriminate | |];
    (destruct (n <? k)%nat; [discriminate | intros [= <-]; now left]).
Defined.

Lemma OwnerCheckAllVersions_only_context_errors_witness :
  isContextFinished (Some (Traced Canceled)) = true.
Proof.
  apply (OwnerCheckAllVersions_only_context_errors (env_canceled_at 2) nodeA (Caller 0) 5
           3 w0 (Traced Canceled)).
  - apply context_errors_canceled_at.
  - vm_compute. reflexivity.
Defined.

Lemma OwnerCheckAllVersions_done_at_call_witness :
  fst (OwnerCheckAllVersions (env_canceled_at 0) 1 nodeA (Caller 0) 5 w0)
  = Some (Some (Traced Canceled)) /\
  trace (snd (OwnerCheckAllVersions (env_canceled_at 0) 1 nodeA (Caller 0) 5 w0)) =
    [EvDone (Caller 0) (Some Canceled); EvSleep (checkVersFirstWaitTime w0)] /\
  ops (snd (OwnerCheckAllVersions (env_canceled_at 0) 1 nodeA (Caller 0) 5 w0)) = 0%nat.
Proof.
  apply (OwnerCheckAllVersions_done_at_call (env_canceled_at 0) nodeA (Caller 0) 5 0 w0 Canceled).
  reflexivity.
Defined.

Lemma OwnerCheckAllVersions_first_scan_witness :
  fst (OwnerCheckAllVersions (env_fail_first 0) 1 nodeA (Caller 0) 5 w55) = Some None.
Proof.
  apply (OwnerCheckAllVersions_first_scan (env_fail_first 0) nodeA (Caller 0) 5 0 w55).
  - reflexivity.
  - reflexivity.
  - repeat constructor.
Defined.

(** ** What the ConvergenceSet holds *)

Section MemoSound.

Variable latestVer : Z.

Lemma checkRound_covers kvs : forall um,
  fst (checkRound latestVer kvs um) = true ->
  forall kv, In kv kvs -> Key kv ∈ snd (checkRound latestVer kvs um).
Proof.
  induction kvs as [|kv kvs IH]; intros um Hok x Hx; [destruct Hx|].
  cbn [checkRound] in *.
  destruct (decide (Key kv ∈ um)) as [Hin|Hout].
  { destruct Hx as [<-|Hx]; [|now apply IH].
    now apply (checkRound_mono latestVer kvs um). }
  destruct (Atoi (Value kv)) as [ver|]; [|discriminate].
  destruct (negb (ver =? latestVer)); [discriminate|].
  destruct Hx as [<-|Hx]; [|now apply IH].
  apply (checkRound_mono latestVer kvs ({[Key kv]} ∪ um)).
  apply elem_of_union. left. now apply elem_of_singleton.
Qed.

(** X13: a node is put into the ConvergenceSet only for a record that read
    as the version: every node that a round adds to the set had such a
    record in the scan of that round, and every node in the set of a call
    had one in some scan of the call.  And a round that succeeds leaves
    every node of its scan in the set. *)
Theorem ConvergenceSet_sound :
  (forall kvs um k,
     k ∈ snd (checkRound latestVer kvs um) ->
     k ∈ um \/ exists kv, In kv kvs /\ Key kv = k /\ holds latestVer kv) /\
  (forall scans k,
     k ∈ memoOf latestVer scans ∅ ->
     exists kvs kv, In kvs scans /\ In kv kvs /\ Key kv = k /\ holds latestVer kv) /\
  (forall kvs um,
     fst (checkRound latestVer kvs um) = true ->
     forall kv, In kv kvs -> Key kv ∈ snd (checkRound latestVer kvs um)).
Proof.
  split; [exact (checkRound_sound latestVer) | split; [|exact checkRound_covers]].
  induction scans as [|kvs scans IH]; intros k Hk; cbn [memoOf fold_right] in Hk.
  - now apply not_elem_of_empty in Hk.
  - fold (memoOf latestVer scans ∅) in Hk.
    apply checkRound_sound in Hk as [Hk | (kv & Hin & Hkey & Hh)].
    + destruct (IH k Hk) as (kvs' & kv & H1 & H2 & H3 & H4).
      exists kvs', kv. split; [now right | now repeat split].
    + exists kvs, kv. split; [now left | now repeat split].
Qed.

End MemoSound.

Lemma ConvergenceSet_sound_witness :
  exists kvs kv,
    In kvs [[mkKV pathA "0"; mkKV pathB "5"]; [mkKV pathA "5"; mkKV pathB "4"]] /\
    In kv kvs /\ Key kv = pathA /\ holds 5 kv.
Proof.
  apply (proj1 (proj2 (ConvergenceSet_sound 5))
           [[mkKV pathA "0"; mkKV pathB "5"]; [mkKV pathA "5"; mkKV pathB "4"]] pathA).
  vm_compute. apply (bool_decide_unpack _). vm_compute. exact I.
Defined.

(** ** The self record and the global version *)

Section GlobalKept.

Variable env : Env.
Hypothesis quiet : global_quiet env.

Lemma removeSelf_loop_keeps_global n : forall ctx key e w,
  key <> ddlGlobalSchemaVersion ->
  globalVersion (store (snd (removeSelf_loop env n ctx key e w))) =
  globalVersion (store w).
Proof.
  induction n as [|n IH]; intros ctx key e w Hne; [reflexivity|].
  rewrite removeSelf_loop_step. cbn zeta.
  destruct (op_err env (ops w)) as [e'|] eqn:He.
  - rewrite IH by assumption. cbn [store]. apply quiet.
  - cbn [snd store]. unfold globalVersion.
    rewrite store_lookup_delete_ne by assumption. apply quiet.
Qed.

(** X14: a node never changes GlobalVersion by writing or removing its
    own record: after [UpdateSelfVersion] and after [RemoveSelfVersionPath]
    of a syncer made by [NewSchemaSyncer], whatever their results,
    GlobalVersion is what it was. *)
Theorem self_record_keeps_global (id : string) (ctx : context) (version : Z) (w : World) :
  globalVersion (store (snd (UpdateSelfVersion env (NewSchemaSyncer id) ctx version w))) =
  globalVersion (store w) /\
  globalVersion (store (snd (RemoveSelfVersionPath env (NewSchemaSyncer id) w))) =
  globalVersion (store w).
Proof.
  split.
  - unfold UpdateSelfVersion, putKV.
    apply putKV_loop_keeps_global; [exact quiet | apply self_path_ne_global].
  - unfold RemoveSelfVersionPath.
    apply removeSelf_loop_keeps_global, self_path_ne_global.
Qed.

Lemma putKV_nil_lookup (s : schemaVersionSyncer) (ctx : context) (retryCnt : Z)
    (key val : string) (w : World) :
  1 <= retryCnt ->
  fst (putKV env s ctx retryCnt key val w) = None ->
  store_lookup key (store (snd (putKV env s ctx retryCnt key val w))) = Some val.
Proof.
  intros H Hnil. unfold putKV in *.
  pose proof (putKV_loop_result env ctx key val (Z.to_nat retryCnt) None w
                ltac:(lia)) as Hr.
  cbn zeta in Hr. rewrite Hnil in Hr. apply Hr.
Qed.

(** X15: a version that the owner has published survives the start of a
    node.  When [OwnerUpdateGlobalVersion] has returned nil, GlobalVersion
    holds the decimal text of the version, and it still does after [Init]
    of any node, whatever [Init] returns. *)
Theorem OwnerUpdate_then_Init (s : schemaVersionSyncer) (ctx ctx' : context)
    (version : Z) (id : string) (w : World) :
  fst (OwnerUpdateGlobalVersion env s ctx version w) = None ->
  let w1 := snd (OwnerUpdateGlobalVersion env s ctx version w) in
  globalVersion (store w1) = Some (FormatInt version) /\
  globalVersion (store (snd (Init env (NewSchemaSyncer id) ctx' w1))) =
  Some (FormatInt version).
Proof.
  intros Hnil w1.
  assert (Hlk : globalVersion (store w1) = Some (FormatInt version)).
  { subst w1. rewrite OwnerUpdateGlobalVersion_unfold in *.
    apply putKV_nil_lookup; [unfold putKeyRetryUnlimited; lia | exact Hnil]. }
  clearbody w1.
  split; [exact Hlk|].
  rewrite (Init_global env quiet). now rewrite Hlk.
Qed.

End GlobalKept.

Lemma self_record_keeps_global_witness :
  globalVersion (store (snd (UpdateSelfVersion (env_fail_first 0) (NewSchemaSyncer "node-a")
                                (Caller 0) 9 w7))) = globalVersion (store w7).
Proof.
  apply (proj1 (self_record_keeps_global (env_fail_first 0) (global_quiet_fail_first 0)
                  "node-a" (Caller 0) 9 w7)).
Defined.

Lemma OwnerUpdate_then_Init_witness :
  globalVersion
    (store (snd (Init env_outage (NewSchemaSyncer "node-b") (Caller 1)
                      (snd (OwnerUpdateGlobalVersion env_outage nodeA (Caller 0) 8 w7)))))
  = Some (FormatInt 8).
Proof.
  apply (proj2 (OwnerUpdate_then_Init env_outage (global_quiet_fail_first 3)
                  nodeA (Caller 0) (Caller 1) 8 "node-b" w7
                  (proj1 (proj1 (OwnerUpdate_after_failures env_outage nodeA (Caller 0)
                                   8 3 w7
                                   ltac:(unfold putKeyRetryUnlimited; lia)
                                   ltac:(intros j Hj; destruct j as [|[|[|j]]];
                                         [split; [reflexivity | discriminate] ..| lia]))
                                eq_refl eq_refl)))).
Defined.
